(** * promptflow/_core/otel_tracer.py

    A shallow embedding of the tracing facade: the demo file exporter
    [FileSpanExporter], the process-wide registry [OpenTelemetryTracer] and
    its attribute coercion [_generate_attribute_value].

    Python code that may raise is embedded in an exception monad; code that
    touches the file system or the process-wide registry threads a [world]
    through, and the world survives a raised exception, as side effects do in
    Python. *)

From Stdlib Require Import Ascii String SpecFloat.
From stdpp Require Import base option list gmap strings pretty.


(** ** Exceptions and results *)

(** The exception classes the modelled code can meet.  [KeyboardInterrupt]
    and [SystemExit] derive from [BaseException] only. *)
Inductive exn : Type :=
| TypeError
| ValueError
| AttributeError
| RecursionError
| FileNotFoundError
| FileExistsError
| IsADirectoryError
| NotADirectoryError
| NoSpaceLeftError
| KeyboardInterrupt
| SystemExit.

Global Instance exn_eq_dec : EqDecision exn.
Proof. solve_decision. Defined.

(** [isinstance(e, Exception)]: what an [except Exception] clause catches. *)
Definition is_Exception (e : exn) : bool :=
  match e with
  | KeyboardInterrupt | SystemExit => false
  | _ => true
  end.

Inductive result (A : Type) : Type :=
| Return (a : A)
| Raise (e : exn).
Arguments Return {A} a.
Arguments Raise {A} e.

Global Instance result_ret : MRet result := @Return.
Global Instance result_bind : MBind result := λ A B f r,
  match r with
  | Return a => f a
  | Raise e => Raise e
  end.
Global Instance result_fmap : FMap result := λ A B f r,
  match r with
  | Return a => Return (f a)
  | Raise e => Raise e
  end.

Definition returns {A} (r : result A) : Prop := ∃ a, r = Return a.
Definition raises {A} (r : result A) : Prop := ∃ e, r = Raise e.

(** The handler of [except Exception:], applied to the exception [e] that
    left the [try] body. *)
Definition except_Exception {A} (e : exn) (handler : result A) : result A :=
  if is_Exception e then handler else Raise e.

(** ** Python values *)

(** The values the coercion distinguishes.  [PObj cls ident] is any object
    whose exact type is none of [str], [int], [float], [bool], [list],
    [tuple]: [None], a [dict], a dataclass, an instance of a subclass of
    [str], ...  Values are finite trees; a list that contains itself is not
    represented. *)
#[local] Unset Elimination Schemes.
Inductive pyobj : Type :=
| PStr (s : string)
| PInt (z : Z)
| PFloat (f : spec_float)
| PBool (b : bool)
| PList (items : list pyobj)
| PTuple (items : list pyobj)
| PObj (cls : string) (ident : N).
#[local] Set Elimination Schemes.

Inductive pytype : Type :=
| Tstr | Tint | Tfloat | Tbool | Tlist | Ttuple
| Tclass (cls : string).

Global Instance pytype_eq_dec : EqDecision pytype.
Proof. solve_decision. Defined.

(** [type(obj)] *)
Definition type (obj : pyobj) : pytype :=
  match obj with
  | PStr _ => Tstr
  | PInt _ => Tint
  | PFloat _ => Tfloat
  | PBool _ => Tbool
  | PList _ => Tlist
  | PTuple _ => Ttuple
  | PObj cls _ => Tclass cls
  end.

(** [t in (t1, ..., tn)] on types *)
Definition type_in (t : pytype) (ts : list pytype) : bool :=
  bool_decide (t ∈ ts).

(** Structural induction on values, with the hypothesis on every item of a
    sequence. *)
Section pyobj_ind.
Variable P : pyobj → Prop.
Hypothesis Hstr : ∀ s, P (PStr s).
Hypothesis Hint : ∀ z, P (PInt z).
Hypothesis Hfloat : ∀ f, P (PFloat f).
Hypothesis Hbool : ∀ b, P (PBool b).
Hypothesis Hlist : ∀ items, Forall P items → P (PList items).
Hypothesis Htuple : ∀ items, Forall P items → P (PTuple items).
Hypothesis Hobj : ∀ cls ident, P (PObj cls ident).

Fixpoint pyobj_items_ind (obj : pyobj) : P obj :=
  match obj with
  | PStr s => Hstr s
  | PInt z => Hint z
  | PFloat f => Hfloat f
  | PBool b => Hbool b
  | PList items =>
      Hlist items
        ((fix go (l : list pyobj) : Forall P l :=
            match l with
            | [] => Forall_nil_2 P
            | x :: l' => Forall_cons_2 P x l' (pyobj_items_ind x) (go l')
            end) items)
  | PTuple items =>
      Htuple items
        ((fix go (l : list pyobj) : Forall P l :=
            match l with
            | [] => Forall_nil_2 P
            | x :: l' => Forall_cons_2 P x l' (pyobj_items_ind x) (go l')
            end) items)
  | PObj cls ident => Hobj cls ident
  end.
End pyobj_ind.

(** [[f(item) for item in items]]: items are visited left to right and the
    first exception ends the comprehension. *)
Fixpoint list_comprehension {A B} (f : A → result B) (items : list A)
  : result (list B) :=
  match items with
  | [] => Return []
  | item :: rest =>
      v ← f item;
      vs ← list_comprehension f rest;
      Return (v :: vs)
  end.

(** ** Spans, exporters, processors *)

Inductive StatusCode : Type := UNSET | OK | ERROR.

(** Modelled from the spec: the span record of section 3 (name, time range,
    attributes with unique keys and last write wins, status); the class
    itself is opentelemetry's. *)
Record Span : Type := mkSpan {
  span_name : string;
  start_time : N;
  end_time : option N;
  status : StatusCode;
  attributes : gmap string pyobj;
}.

Inductive SpanExportResult : Type := SUCCESS | FAILURE.

Record FileSpanExporter : Type := mkFileSpanExporter { file_name : string }.

(** What [add_span_exporter] may be handed: the SDK's console exporter, the
    file exporter of this module, or any other [SpanExporter]. *)
Inductive SpanExporter : Type :=
| ConsoleSpanExporter
| FileExporter (self : FileSpanExporter)
| OtherSpanExporter (ident : N).

(** A [BatchSpanProcessor] object: its identity and the exporter it wraps.
    Its queue and worker thread belong to the SDK and are not modelled. *)
Record BatchSpanProcessor : Type := mkBatchSpanProcessor {
  processor_id : nat;
  span_exporter : SpanExporter;
}.

(** An [OpenTelemetryTracer] object with the two attributes [get_instance]
    gives it. *)
Record OpenTelemetryTracer : Type := mkOpenTelemetryTracer {
  object_id : nat;
  _tracer : string;
  _span_processors : list BatchSpanProcessor;
}.

(** What [start_as_current_span] hands back: the context manager, not yet
    entered. *)
Record span_scope : Type := mkScope {
  scope_name : string;
  scope_attributes : option (list (string * pyobj));
}.

(** ** The world *)

Inductive event : Type :=
| EvMkdir (path : string)
| EvOpen (path : string) (fd : nat)
| EvWrite (fd : nat) (data : string)
| EvClose (fd : nat)
| EvShutdown (processor : nat).

(** The state the module reads and writes: a file system (directories,
    regular files with their content, bytes left on the device, open file
    handles), the log of host calls, the class attribute [_instance], the
    number of [OpenTelemetryTracer] objects ever allocated, opentelemetry's
    global tracer provider ([None] until one is set) with the processors
    added to it, the number of processors ever built, and the spans with the
    current span of the execution context. *)
Record world : Type := mkWorld {
  dirs : gset string;
  files : gmap string string;
  free_space : nat;
  handles : gmap nat string;
  events : list event;
  _instance : option OpenTelemetryTracer;
  instances_created : nat;
  tracer_provider : option (list BatchSpanProcessor);
  processors_created : nat;
  spans : gmap nat Span;
  current_span : option nat;
}.

Definition set_dirs (f : gset string → gset string) (w : world) : world :=
  mkWorld (f (dirs w)) (files w) (free_space w) (handles w)
    (events w) (_instance w) (instances_created w) (tracer_provider w)
    (processors_created w) (spans w) (current_span w).

Definition set_files (f : gmap string string → gmap string string) (w : world) : world :=
  mkWorld (dirs w) (f (files w)) (free_space w) (handles w)
    (events w) (_instance w) (instances_created w) (tracer_provider w)
    (processors_created w) (spans w) (current_span w).

Definition set_free_space (f : nat → nat) (w : world) : world :=
  mkWorld (dirs w) (files w) (f (free_space w)) (handles w)
    (events w) (_instance w) (instances_created w) (tracer_provider w)
    (processors_created w) (spans w) (current_span w).

Definition set_handles (f : gmap nat string → gmap nat string) (w : world) : world :=
  mkWorld (dirs w) (files w) (free_space w) (f (handles w))
    (events w) (_instance w) (instances_created w) (tracer_provider w)
    (processors_created w) (spans w) (current_span w).

Definition log (ev : event) (w : world) : world :=
  mkWorld (dirs w) (files w) (free_space w) (handles w)
    (events w ++ [ev]) (_instance w) (instances_created w) (tracer_provider w)
    (processors_created w) (spans w) (current_span w).

Definition set_instance (f : option OpenTelemetryTracer → option OpenTelemetryTracer)
  (w : world) : world :=
  mkWorld (dirs w) (files w) (free_space w) (handles w)
    (events w) (f (_instance w)) (instances_created w) (tracer_provider w)
    (processors_created w) (spans w) (current_span w).

Definition set_instances_created (f : nat → nat) (w : world) : world :=
  mkWorld (dirs w) (files w) (free_space w) (handles w)
    (events w) (_instance w) (f (instances_created w)) (tracer_provider w)
    (processors_created w) (spans w) (current_span w).

Definition set_provider
  (f : option (list BatchSpanProcessor) → option (list BatchSpanProcessor))
  (w : world) : world :=
  mkWorld (dirs w) (files w) (free_space w) (handles w)
    (events w) (_instance w) (instances_created w) (f (tracer_provider w))
    (processors_created w) (spans w) (current_span w).

Definition set_processors_created (f : nat → nat) (w : world) : world :=
  mkWorld (dirs w) (files w) (free_space w) (handles w)
    (events w) (_instance w) (instances_created w) (tracer_provider w)
    (f (processors_created w)) (spans w) (current_span w).

Definition set_spans (f : gmap nat Span → gmap nat Span) (w : world) : world :=
  mkWorld (dirs w) (files w) (free_space w) (handles w)
    (events w) (_instance w) (instances_created w) (tracer_provider w)
    (processors_created w) (f (spans w)) (current_span w).

(** The world of a fresh process in an empty working directory with
    [space] bytes left on the device. *)
Definition fresh_process (space : nat) : world :=
  mkWorld ∅ ∅ space ∅ [] None 0 None 0 ∅ None.

(** ** Statements with side effects *)

(** A statement maps the world to its outcome and the world it leaves; what
    it did before raising stays done. *)
Definition IO (A : Type) : Type := world → result A * world.

Global Instance IO_ret : MRet IO := λ A a w, (Return a, w).
Global Instance IO_bind : MBind IO := λ A B f m w,
  match m w with
  | (Return a, w') => f a w'
  | (Raise e, w') => (Raise e, w')
  end.

Definition raise {A} (e : exn) : IO A := λ w, (Raise e, w).
Definition lift {A} (r : result A) : IO A := λ w, (r, w).
Definition get {A} (f : world → A) : IO A := λ w, (Return (f w), w).
Definition modify (f : world → world) : IO unit := λ w, (Return (), f w).

(** [try: body finally: cleanup] *)
Definition finally {A} (body : IO A) (cleanup : IO unit) : IO A := λ w,
  let '(r, w') := body w in
  match cleanup w' with
  | (Return _, w'') => (r, w'')
  | (Raise e, w'') => (Raise e, w'')
  end.

(** [try: body except cls: pass] for one exception class *)
Definition pass_on (cls : exn) (body : IO unit) : IO unit := λ w,
  match body w with
  | (Raise e, w') => if bool_decide (e = cls) then (Return (), w') else (Raise e, w')
  | r => r
  end.

(** [for item in items: body(item)] *)
Fixpoint for_each {A} (items : list A) (body : A → IO unit) : IO unit :=
  match items with
  | [] => mret ()
  | item :: rest => body item;; for_each rest body
  end.

Definition outcome {A} (r : result A * world) : result A := r.1.
Definition after {A} (r : result A * world) : world := r.2.

(** ** posixpath *)

Definition sep : ascii := "/"%char.
Definition newline : string := String (ascii_of_nat 10) "".

Definition is_sep (c : ascii) : bool := bool_decide (c = sep).

Fixpoint drop_leading (p : ascii → bool) (l : list ascii) : list ascii :=
  match l with
  | c :: l' => if p c then drop_leading p l' else l
  | [] => []
  end.

Fixpoint take_leading (p : ascii → bool) (l : list ascii) : list ascii :=
  match l with
  | c :: l' => if p c then c :: take_leading p l' else []
  | [] => []
  end.

(** [head.rstrip(sep)] *)
Definition rstrip_sep (l : list ascii) : list ascii :=
  reverse (drop_leading is_sep (reverse l)).

(** [posixpath.split]: with [i = p.rfind('/') + 1] the pair is
    [(p[:i], p[i:])], and the head loses its trailing separators unless it
    consists of separators only. *)
Definition os_path_split (p : string) : string * string :=
  let r := reverse (list_ascii_of_string p) in
  let head := reverse (drop_leading (λ c, negb (is_sep c)) r) in
  let tail := reverse (take_leading (λ c, negb (is_sep c)) r) in
  let head :=
    if negb (bool_decide (head = [])) && negb (forallb is_sep head)
    then rstrip_sep head else head in
  (string_of_list_ascii head, string_of_list_ascii tail).

(** [os.path.dirname] and [os.path.basename] *)
Definition dirname (p : string) : string := (os_path_split p).1.
Definition basename (p : string) : string := (os_path_split p).2.

(** ** The host file system

    A path names an entry by its spelling: [.], [..] and repeated separators
    are not interpreted, relative paths are relative to one fixed working
    directory, and a path made of separators only is the root, which always
    exists.  Writes are unbuffered: [write] reaches the file at once or
    raises. *)

Inductive entry_kind : Type := Directory | RegularFile.

Global Instance entry_kind_eq_dec : EqDecision entry_kind.
Proof. solve_decision. Defined.

Definition is_root (path : string) : bool :=
  negb (bool_decide (path = "")) && forallb is_sep (list_ascii_of_string path).

Definition entry (path : string) (w : world) : option entry_kind :=
  if bool_decide (path = "") then None
  else if is_root path || bool_decide (path ∈ dirs w) then Some Directory
  else if bool_decide (is_Some (files w !! path)) then Some RegularFile
  else None.

(** [os.path.exists] *)
Definition path_exists (path : string) (w : world) : bool :=
  bool_decide (is_Some (entry path w)).

Definition os_path_exists (path : string) : IO bool := get (path_exists path).

(** Why an entry cannot be made at [path]: the directory it would live in is
    missing or is a regular file. *)
Definition parent_error (path : string) (w : world) : option exn :=
  let parent := dirname path in
  if bool_decide (parent = "") then None
  else match entry parent w with
       | Some Directory => None
       | Some RegularFile => Some NotADirectoryError
       | None => Some FileNotFoundError
       end.

Definition mkdir_error (name : string) (w : world) : option exn :=
  if bool_decide (name = "") then Some FileNotFoundError
  else if path_exists name w then Some FileExistsError
  else parent_error name w.

(** [os.mkdir] *)
Definition os_mkdir (name : string) : IO unit := λ w,
  match mkdir_error name w with
  | Some e => (Raise e, w)
  | None => (Return (), log (EvMkdir name) (set_dirs (λ d, {[name]} ∪ d) w))
  end.

(** [os.makedirs(name)] with [exist_ok=False], after the standard library:
    the missing parents are made first, a parent that appears meanwhile is
    tolerated, then [name] itself is made.  (The library's shortcut for a
    trailing [.] component is left out with the interpretation of [.].)
    [depth] bounds the recursion as the interpreter's stack does. *)
Fixpoint makedirs (depth : nat) (name : string) : IO unit :=
  match depth with
  | 0 => raise RecursionError
  | S depth' =>
      let '(head, tail) := os_path_split name in
      let '(head, tail) :=
        if bool_decide (tail = "") then os_path_split head else (head, tail) in
      head_exists ← os_path_exists head;
      (if negb (bool_decide (head = "")) && negb (bool_decide (tail = ""))
          && negb head_exists
       then pass_on FileExistsError (makedirs depth' head)
       else mret ());;
      os_mkdir name
  end.

(** Every recursive call is on a strictly shorter name, so this depth is
    never exhausted (lemma [os_makedirs_never_exhausts]). *)
Definition os_makedirs (name : string) : IO unit :=
  makedirs (S (String.length name)) name.

(** Why [open(path, "a")] fails, if it does. *)
Definition open_error (path : string) (w : world) : option exn :=
  if bool_decide (path = "") then Some FileNotFoundError
  else if bool_decide (entry path w = Some Directory)
          || bool_decide (basename path = "")
       then Some IsADirectoryError
  else parent_error path w.

(** [open(path, "a")]: the file is created empty when absent and is never
    truncated; the result is the handle. *)
Definition open_append (path : string) : IO nat := λ w,
  match open_error path w with
  | Some e => (Raise e, w)
  | None =>
      let fd := fresh (dom (handles w)) in
      (Return fd,
       log (EvOpen path fd)
         (set_handles <[fd := path]>
            (set_files (λ fs, <[path := default "" (fs !! path)]> fs) w)))
  end.

(** [file.write(data)] *)
Definition file_write (fd : nat) (data : string) : IO unit := λ w,
  match handles w !! fd with
  | None => (Raise ValueError, w)
  | Some path =>
      if bool_decide (String.length data ≤ free_space w)%nat
      then (Return (),
            log (EvWrite fd data)
              (set_free_space (λ n, n - String.length data)
                 (set_files (λ fs, <[path := default "" (fs !! path) +:+ data]> fs) w)))
      else (Raise NoSpaceLeftError, w)
  end.

(** [file.close()] *)
Definition file_close (fd : nat) : IO unit :=
  modify (λ w, log (EvClose fd) (set_handles (delete fd) w)).

(** [with open(path, "a") as file: body]: the handle is closed however the
    body ends. *)
Definition with_open_append {A} (path : string) (body : nat → IO A) : IO A :=
  file ← open_append path;
  finally (body file) (file_close file).

(** ** opentelemetry, as far as the module calls it *)

(** Modelled from the spec: [Span.set_attribute] of section 4.1; after the
    span has ended the attribute is dropped silently, otherwise it is stored
    under its key, the last write winning. *)
Definition Span_set_attribute (key : string) (value : pyobj) (s : Span) : Span :=
  match end_time s with
  | Some _ => s
  | None =>
      mkSpan (span_name s) (start_time s) (end_time s) (status s)
        (<[key := value]> (attributes s))
  end.

(** Modelled from the spec: [Span.set_status] of section 4.1, with the same
    restriction after the end. *)
Definition Span_set_status (code : StatusCode) (s : Span) : Span :=
  match end_time s with
  | Some _ => s
  | None => mkSpan (span_name s) (start_time s) (end_time s) code (attributes s)
  end.

(** [trace.get_current_span()]: the current span of the execution context,
    or [None] for the non-recording [INVALID_SPAN], on which every call below
    does nothing. *)
Definition trace_get_current_span : IO (option nat) := get current_span.

Definition on_span (ref : option nat) (f : Span → Span) : IO unit :=
  match ref with
  | Some i => modify (set_spans (alter f i))
  | None => mret ()
  end.

(** [trace.set_tracer_provider(TracerProvider())]: the global provider is set
    once; a later call leaves the one in place. *)
Definition trace_set_tracer_provider : IO unit :=
  modify (set_provider (λ p, match p with None => Some [] | Some ps => Some ps end)).

(** [trace.get_tracer_provider().add_span_processor(p)]: while no provider
    is set the global one is a proxy without that method. *)
Definition provider_add_span_processor (p : BatchSpanProcessor) : IO unit := λ w,
  match tracer_provider w with
  | None => (Raise AttributeError, w)
  | Some ps => (Return (), set_provider (λ _, Some (ps ++ [p])) w)
  end.

(** [BatchSpanProcessor(exporter)]: a new object around the exporter. *)
Definition new_BatchSpanProcessor (exporter : SpanExporter) : IO BatchSpanProcessor := λ w,
  (Return (mkBatchSpanProcessor (processors_created w) exporter),
   set_processors_created S w).

(** Modelled from the spec: [BatchSpanProcessor.shutdown] of section 4.3
    returns without raising; the call is logged. *)
Definition shutdown (p : BatchSpanProcessor) : IO unit :=
  modify (log (EvShutdown (processor_id p))).

(** ** Doubles of the collaborators, for the examples

    The examples below run the module against these doubles: a serializer
    that knows two classes, a JSON encoder for strings, integers, booleans
    and sequences, and a [str] that fails on one class. *)

Definition quote : string := String (ascii_of_nat 34) "".

(** Modelled from the spec: the structured-serialization collaborator
    (object to JSON-compatible form, may fail), which is
    [promptflow._utils.dataclass_serializer.serialize], on the sample
    objects: a [datetime] becomes its ISO string, a member of the [Enum]
    class [Mode] becomes its value, a [bytes] object, and every other value
    is handed back as it is. *)
Definition sample_serialize (obj : pyobj) : result pyobj :=
  match obj with
  | PObj "datetime" _ => Return (PStr "2024-01-01T00:00:00Z")
  | PObj "Mode" ident => Return (PObj "bytes" ident)
  | _ => Return obj
  end.

(** [json.dumps] on strings that need no escaping and on integers, booleans
    and sequences of these; an object of any other type is answered with
    [TypeError] (floats are not rendered by this double). *)
Fixpoint sample_json_dumps (obj : pyobj) : result string :=
  let dump_items :=
    fix dump_items (l : list pyobj) : result string :=
      match l with
      | [] => Return ""
      | [item] => sample_json_dumps item
      | item :: rest =>
          s ← sample_json_dumps item;
          t ← dump_items rest;
          Return (s +:+ ", " +:+ t)
      end in
  match obj with
  | PStr s => Return (quote +:+ s +:+ quote)
  | PInt z => Return (pretty z)
  | PBool b => Return (if b then "true" else "false")
  | PList items | PTuple items =>
      s ← dump_items items; Return ("[" +:+ s +:+ "]")
  | PFloat _ | PObj _ _ => Raise TypeError
  end.

(** [str] on the sample objects: an instance of the class [Unprintable],
    whose [__str__] raises [ValueError], and otherwise a fixed rendering per
    kind of value. *)
Definition sample_str (obj : pyobj) : result string :=
  match obj with
  | PObj "Unprintable" _ => Raise ValueError
  | PObj cls _ => Return ("<" +:+ cls +:+ " object>")
  | PStr s => Return s
  | PInt z => Return (pretty z)
  | PBool b => Return (if b then "True" else "False")
  | PFloat _ => Return "<float>"
  | PList _ => Return "[...]"
  | PTuple _ => Return "(...)"
  end.

(** [span.to_json(indent=None)], reduced to the name of the span. *)
Definition sample_to_json (span : Span) : string :=
  "{" +:+ quote +:+ "name" +:+ quote +:+ ": " +:+ quote +:+ span_name span +:+ quote +:+ "}".

(** The calls the class offers to the rest of the application. *)
Inductive call : Type :=
| Call_get_instance
| Call_new
| Call_add_console_span_exporter
| Call_add_file_span_exporter (file_name : string)
| Call_add_span_exporter (exporter : SpanExporter)
| Call_start_as_current_span (name : string) (attributes : option (list (string * pyobj)))
| Call_get_current_span
| Call_mark_succeeded
| Call_mark_failed
| Call_set_attribute (key : string) (value : pyobj)
| Call_close
| Call_del.

(** * The module *)

Section Tracer.

(** [to_json] is [Span.to_json(indent=None)] of the SDK; [serialize] is
    promptflow._utils.dataclass_serializer.serialize, [json_dumps] is
    json.dumps and [str] the builtin, each of which may raise. *)
Variable to_json : Span → string.
Variable serialize : pyobj → result pyobj.
Variable json_dumps : pyobj → result string.
Variable str : pyobj → result string.

(** ** class FileSpanExporter *)

Definition __init__ (file_name : string) : IO FileSpanExporter :=
  let self := mkFileSpanExporter file_name in
  let directory := dirname file_name in
  found ← os_path_exists directory;
  (if negb found then os_makedirs directory else mret ());;
  mret self.

Definition export (self : FileSpanExporter) (spans : list Span) : IO SpanExportResult :=
  with_open_append (file_name self) (λ file,
    for_each spans (λ span, file_write file (to_json span +:+ newline)));;
  mret SUCCESS.

(** ** class OpenTelemetryTracer *)

Definition __name__ : string := "promptflow._core.otel_tracer".

(** The [try]/[except Exception] at the end of the coercion.  The [try]
    body rebinds [obj] to the serialized form before it encodes it, so the
    handler sees the original object when [serialize] raised and the
    serialized one when [json.dumps] raised. *)
Definition serialize_or_str (obj : pyobj) : result pyobj :=
  match serialize obj with
  | Raise e => except_Exception e (PStr <$> str obj)
  | Return obj' =>
      match json_dumps obj' with
      | Return s => Return (PStr s)
      | Raise e => except_Exception e (PStr <$> str obj')
      end
  end.

Fixpoint _generate_attribute_value (obj : pyobj) : result pyobj :=
  let value_type := type obj in
  if type_in value_type [Tstr; Tint; Tfloat; Tbool] then Return obj
  else
    match obj with
    | PList items | PTuple items =>
        (* value_type in (list, tuple) *)
        PList <$>
          (fix comprehension (l : list pyobj) : result (list pyobj) :=
             match l with
             | [] => Return []
             | item :: rest =>
                 v ← _generate_attribute_value item;
                 vs ← comprehension rest;
                 Return (v :: vs)
             end) items
    | _ => serialize_or_str obj
    end.

(** [get_instance]: without contention the lock is free and the second
    check repeats the first; the branch allocates the object, sets the
    global provider and gives the object its two attributes.  The result is
    the identity of [cls._instance]. *)
Definition get_instance : IO nat := λ w,
  match _instance w with
  | Some inst => (Return (object_id inst), w)
  | None =>
      let inst := mkOpenTelemetryTracer (instances_created w) __name__ [] in
      let w := set_instances_created S (set_instance (λ _, Some inst) w) in
      let w := after (trace_set_tracer_provider w) in
      (Return (object_id inst), w)
  end.

Definition __new__ : IO nat := get_instance.

(** [self._span_processors.append(p)] on the object [get_instance]
    returned *)
Definition _span_processors_append (self : nat) (p : BatchSpanProcessor) : IO unit := λ w,
  match _instance w with
  | Some inst =>
      if bool_decide (object_id inst = self)
      then (Return (),
            set_instance (λ _, Some (mkOpenTelemetryTracer (object_id inst)
                                       (_tracer inst) (_span_processors inst ++ [p]))) w)
      else (Raise AttributeError, w)
  | None => (Raise AttributeError, w)
  end.

(** [self._span_processors] *)
Definition _span_processors_of (self : nat) : IO (list BatchSpanProcessor) := λ w,
  match _instance w with
  | Some inst =>
      if bool_decide (object_id inst = self)
      then (Return (_span_processors inst), w)
      else (Raise AttributeError, w)
  | None => (Raise AttributeError, w)
  end.

Definition add_span_exporter (exporter : SpanExporter) : IO unit :=
  span_processor ← new_BatchSpanProcessor exporter;
  self ← get_instance;
  _span_processors_append self span_processor;;
  provider_add_span_processor span_processor.

Definition add_console_span_exporter : IO unit :=
  add_span_exporter ConsoleSpanExporter.

Definition add_file_span_exporter (file_name : string) : IO unit :=
  exporter ← __init__ file_name;
  add_span_exporter (FileExporter exporter).

Definition start_as_current_span (name : string)
  (attributes : option (list (string * pyobj))) : IO span_scope :=
  get_instance;;
  mret (mkScope name attributes).

Definition get_current_span : IO (option nat) := trace_get_current_span.

Definition mark_succeeded : IO unit :=
  get_instance;;
  span ← get_current_span;
  on_span span (Span_set_status OK).

Definition mark_failed : IO unit :=
  get_instance;;
  span ← get_current_span;
  on_span span (Span_set_status ERROR).

Definition set_attribute (key : string) (value : pyobj) : IO unit :=
  get_instance;;
  attribute_value ← lift (_generate_attribute_value value);
  get_instance;;
  span ← get_current_span;
  on_span span (Span_set_attribute key attribute_value).

Definition close : IO unit :=
  self ← get_instance;
  span_processors ← _span_processors_of self;
  for_each span_processors shutdown.

Definition __del__ : IO unit := close.

(** A call of the class from outside, and a program of such calls.  A call
    that raises leaves the world as it was when the exception left. *)
Definition perform (c : call) : IO unit :=
  match c with
  | Call_get_instance => get_instance;; mret ()
  | Call_new => __new__;; mret ()
  | Call_add_console_span_exporter => add_console_span_exporter
  | Call_add_file_span_exporter file_name => add_file_span_exporter file_name
  | Call_add_span_exporter exporter => add_span_exporter exporter
  | Call_start_as_current_span name attributes =>
      start_as_current_span name attributes;; mret ()
  | Call_get_current_span => get_current_span;; mret ()
  | Call_mark_succeeded => mark_succeeded
  | Call_mark_failed => mark_failed
  | Call_set_attribute key value => set_attribute key value
  | Call_close => close
  | Call_del => __del__
  end.

Definition run_calls (cs : list call) (w : world) : world :=
  foldl (λ w c, after (perform c w)) w cs.

(** The registered processors, as [close] will visit them. *)
Definition registered (w : world) : list BatchSpanProcessor :=
  match _instance w with
  | Some inst => _span_processors inst
  | None => []
  end.

End Tracer.

(** ** [get_instance] under concurrency

    Threads run [get_instance] one statement at a time, interleaved by a
    schedule.  Reading [cls._instance] and branching on it is one step, as
    is each assignment; a thread that finds the lock taken waits. *)

Inductive pc : Type :=
| Idle               (* outside get_instance *)
| FirstCheck         (* if not cls._instance: *)
| Acquire            (*     with cls._lock: *)
| SecondCheck        (*         if not cls._instance: *)
| Allocate           (*             cls._instance = super().__new__(cls) *)
| SetProvider        (*             trace.set_tracer_provider(TracerProvider()) *)
| SetTracer          (*             cls._instance._tracer = trace.get_tracer(__name__) *)
| SetProcessors      (*             cls._instance._span_processors = [] *)
| Release            (*     leaving the with block *)
| ReturnInstance.    (* return cls._instance *)

Global Instance pc_eq_dec : EqDecision pc.
Proof. solve_decision. Defined.

Record cstate : Type := mkCstate {
  pcs : list pc;
  c_instance : option nat;
  c_created : nat;
  c_lock : option nat;
  c_provider_set : bool;
  c_has_tracer : bool;
  c_has_processors : bool;
  c_returned : list (nat * option nat);
}.

Definition goto (t : nat) (l : pc) (s : cstate) : cstate :=
  mkCstate (<[t := l]> (pcs s)) (c_instance s) (c_created s) (c_lock s)
    (c_provider_set s) (c_has_tracer s) (c_has_processors s) (c_returned s).

(** The next statement of thread [t]. *)
Definition thread_step (t : nat) (s : cstate) : cstate :=
  match pcs s !! t with
  | None => s
  | Some Idle => goto t FirstCheck s
  | Some FirstCheck =>
      match c_instance s with
      | None => goto t Acquire s
      | Some _ => goto t ReturnInstance s
      end
  | Some Acquire =>
      match c_lock s with
      | None =>
          goto t SecondCheck
            (mkCstate (pcs s) (c_instance s) (c_created s) (Some t)
               (c_provider_set s) (c_has_tracer s) (c_has_processors s) (c_returned s))
      | Some _ => s
      end
  | Some SecondCheck =>
      match c_instance s with
      | None => goto t Allocate s
      | Some _ => goto t Release s
      end
  | Some Allocate =>
      goto t SetProvider
        (mkCstate (pcs s) (Some (c_created s)) (S (c_created s)) (c_lock s)
           (c_provider_set s) false false (c_returned s))
  | Some SetProvider =>
      goto t SetTracer
        (mkCstate (pcs s) (c_instance s) (c_created s) (c_lock s)
           true (c_has_tracer s) (c_has_processors s) (c_returned s))
  | Some SetTracer =>
      goto t SetProcessors
        (mkCstate (pcs s) (c_instance s) (c_created s) (c_lock s)
           (c_provider_set s) true (c_has_processors s) (c_returned s))
  | Some SetProcessors =>
      goto t Release
        (mkCstate (pcs s) (c_instance s) (c_created s) (c_lock s)
           (c_provider_set s) (c_has_tracer s) true (c_returned s))
  | Some Release =>
      goto t ReturnInstance
        (mkCstate (pcs s) (c_instance s) (c_created s) None
           (c_provider_set s) (c_has_tracer s) (c_has_processors s) (c_returned s))
  | Some ReturnInstance =>
      goto t Idle
        (mkCstate (pcs s) (c_instance s) (c_created s) (c_lock s)
           (c_provider_set s) (c_has_tracer s) (c_has_processors s)
           (c_returned s ++ [(t, c_instance s)]))
  end.

Definition run_threads (schedule : list nat) (s : cstate) : cstate :=
  foldl (λ s t, thread_step t s) s schedule.

(** [threads] threads in a process that has not yet used the class. *)
Definition fresh_threads (threads : nat) : cstate :=
  mkCstate (replicate threads Idle) None 0 None false false false [].

(** * The vocabulary of the properties *)


(** Where an exception that leaves the coercion comes from. *)
Definition escapes (serialize : pyobj → result pyobj)
  (json_dumps str : pyobj → result string) (e : exn) : Prop :=
  (∃ v, str v = Raise e)
  ∨ is_Exception e = false
    ∧ ((∃ v, serialize v = Raise e) ∨ (∃ v, json_dumps v = Raise e)).

(** The text a list of writes adds to a file, and its size. *)
Definition written_text (datas : list string) : string :=
  foldr String.append "" datas.

Definition written_size (datas : list string) : nat :=
  foldr (λ d n, String.length d + n) 0 datas.

(** The lines [export] writes for a batch. *)
Definition records (to_json : Span → string) (spans : list Span) : list string :=
  (λ span, to_json span +:+ newline) <$> spans.

(** No content is lost between two worlds: every file of the first is still
    there and starts with what it held. *)
Definition files_kept (w w' : world) : Prop :=
  ∀ path content, files w !! path = Some content →
    ∃ added, files w' !! path = Some (content +:+ added).

(** Everything but the file system part of the world. *)
Definition rest_of_world (w : world) :=
  (_instance w, instances_created w, tracer_provider w, processors_created w,
   spans w, current_span w).

(** The world right after [open(path, "a")] succeeded. *)
Definition opened (path : string) (w : world) : world :=
  log (EvOpen path (fresh (dom (handles w))))
    (set_handles <[fresh (dom (handles w)) := path]>
       (set_files (λ fs, <[path := default "" (fs !! path)]> fs) w)).

(** The identity of the instance, if there is one. *)
Definition identity (w : world) : option nat := object_id <$> _instance w.

(** As many objects were allocated as [_instance] holds: none, or the one
    with identity 0. *)
Definition at_most_one (w : world) : Prop :=
  match _instance w with
  | None => instances_created w = 0
  | Some inst => instances_created w = 1 ∧ object_id inst = 0
  end.

(** How the registry may differ between two worlds: processors are only
    added at the end, and an instance, once there, stays the same object. *)
Definition grows (w w' : world) : Prop :=
  registered w `prefix_of` registered w'
  ∧ (at_most_one w → at_most_one w')
  ∧ (is_Some (_instance w) → identity w' = identity w).

(** The registry is as the class leaves it: with the instance comes a
    provider, and every registered processor was built before. *)
Definition registry_ok (w : world) : Prop :=
  (is_Some (_instance w) → is_Some (tracer_provider w))
  ∧ (∀ p, p ∈ registered w → processor_id p < processors_created w).

(** A statement keeps a relation between the world before and after it,
    however it ends. *)
Definition preserves (R : relation world) {A} (m : IO A) : Prop :=
  ∀ w, R w (after (m w)).

(** The world after [shutdown] was called on each of [ps] in turn. *)
Definition shut (ps : list BatchSpanProcessor) (w : world) : world :=
  foldl (λ w p, log (EvShutdown (processor_id p)) w) w ps.

(** The statements inside the [with cls._lock] block. *)
Definition in_critical (l : pc) : bool :=
  match l with
  | SecondCheck | Allocate | SetProvider | SetTracer | SetProcessors | Release => true
  | _ => false
  end.

(** The statements that are only reached once [cls._instance] is set. *)
Definition past_creation (l : pc) : bool :=
  match l with
  | SetProvider | SetTracer | SetProcessors | Release | ReturnInstance => true
  | _ => false
  end.

(** How many statements of [get_instance] a thread has at most before it is
    back outside. *)
Definition rank (l : pc) : nat :=
  match l with
  | Idle => 0
  | ReturnInstance => 1
  | Release => 2
  | SetProcessors => 3
  | SetTracer => 4
  | SetProvider => 5
  | Allocate => 6
  | SecondCheck => 7
  | Acquire => 8
  | FirstCheck => 9
  end.

(** What holds in every state the threads can reach: as many objects were
    allocated as [_instance] holds, and that one is object 0; a thread inside
    the [with] block holds the lock, and the lock is held by a thread inside
    the block; a thread about to allocate sees no
    instance (it holds the lock and nobody else can have allocated); a thread
    past the creation sees one; and every reference returned so far is
    object 0. *)
Record inv (s : cstate) : Prop := mkInv {
  inv_created : c_created s = match c_instance s with Some _ => 1 | None => 0 end;
  inv_id : ∀ i, c_instance s = Some i → i = 0;
  inv_lock : ∀ t l, pcs s !! t = Some l → in_critical l = true → c_lock s = Some t;
  inv_holder : ∀ t, c_lock s = Some t →
               ∃ l, pcs s !! t = Some l ∧ in_critical l = true;
  inv_alloc : ∀ t, pcs s !! t = Some Allocate → c_instance s = None;
  inv_past : ∀ t l, pcs s !! t = Some l → past_creation l = true →
             is_Some (c_instance s);
  inv_returned : ∀ t v, (t, v) ∈ c_returned s → v = Some 0;
}.

(** Two ended spans and the exporter of [logs/spans.jsonl]. *)
Definition load_span : Span := mkSpan "load" 1 (Some 2%N) OK ∅.
Definition run_span : Span := mkSpan "run" 3 (Some 5%N) ERROR ∅.
Definition spans_jsonl : FileSpanExporter := mkFileSpanExporter "logs/spans.jsonl".

(** A process that constructed the exporter of [logs/spans.jsonl] with
    [space] bytes left on the device. *)
Definition with_logs (space : nat) : world :=
  after (__init__ "logs/spans.jsonl" (fresh_process space)).

(** A process whose execution context has one active span, number 7, as
    its current span. *)
Definition tracing : world :=
  mkWorld ∅ ∅ 0 ∅ [] None 0 None 0 {[7 := mkSpan "load" 1 None UNSET ∅]} (Some 7).

(** The values an attribute may hold, after the comment above the coercion
    in the source: [str], [int], [float], [bool] and lists of such values. *)
Fixpoint attribute_shaped (obj : pyobj) : bool :=
  match obj with
  | PStr _ | PInt _ | PFloat _ | PBool _ => true
  | PList items =>
      (fix all (l : list pyobj) : bool :=
         match l with
         | [] => true
         | x :: l' => attribute_shaped x && all l'
         end) items
  | PTuple _ | PObj _ _ => false
  end.

(** Every attribute of every span is such a value. *)
Definition attributes_shaped (w : world) : Prop :=
  ∀ i s key v, spans w !! i = Some s → attributes s !! key = Some v →
    attribute_shaped v = true.

(** A projection of the world has the same value in two worlds. *)
Definition keeps {A} (f : world → A) : relation world := λ w w', f w' = f w.

(** The registry part and the span part of the world. *)
Definition registry_of (w : world) :=
  (_instance w, instances_created w, tracer_provider w, processors_created w).

Definition spans_of (w : world) := (spans w, current_span w).

(** Instance, provider and processors are in step: without an instance
    there is no provider and no processor was built; with one, the provider
    holds exactly the registered processors, and these are the processors
    built so far, in the order they were built. *)
Definition in_step (w : world) : Prop :=
  match _instance w with
  | None => tracer_provider w = None ∧ processors_created w = 0
  | Some inst =>
      tracer_provider w = Some (_span_processors inst)
      ∧ processor_id <$> _span_processors inst = seq 0 (processors_created w)
  end.

(** A property of the world that holds after whenever it held before. *)
Definition carries (P : world → Prop) : relation world := λ w w', P w → P w'.

(** The files, the open handles and the free space of the device. *)
Definition storage_of (w : world) := (files w, handles w, free_space w).

(** The initialisation of the instance has got as far as the thread that
    allocated it has got: once there is an instance, either a thread is
    about to set the provider, or the provider is set and a thread is about
    to set [_tracer], or that is set too and a thread is about to set
    [_span_processors], or all three are set. *)
Definition init_inv (s : cstate) : Prop :=
  is_Some (c_instance s) →
  (∃ t, pcs s !! t = Some SetProvider)
  ∨ (c_provider_set s = true ∧ ∃ t, pcs s !! t = Some SetTracer)
  ∨ (c_provider_set s = true ∧ c_has_tracer s = true
     ∧ ∃ t, pcs s !! t = Some SetProcessors)
  ∨ (c_provider_set s = true ∧ c_has_tracer s = true
     ∧ c_has_processors s = true).

(** A process in whose working directory [notes.txt] is a regular file. *)
Definition with_a_note : world :=
  mkWorld ∅ {["notes.txt" := "remember"]} 100 ∅ [] None 0 None 0 ∅ None.

(** * Properties *)

(** ** Attribute coercion *)


Lemma list_comprehension_raises {A B} (f : A → result B) items e :
  list_comprehension f items = Raise e →
  ∃ i x, items !! i = Some x ∧ f x = Raise e.
Proof.
  induction items as [|x l IH]; simpl; [done|].
  destruct (f x) as [y|e'] eqn:Hx; simpl.
  - destruct (list_comprehension f l) as [ys|e''] eqn:Hl; simpl; [done|].
    intros [= ->]. destruct IH as (i & z & Hi & Hz); [done|].
    by exists (S i), z.
  - intros [= ->]. by exists 0, x.
Qed.



Section Coercion_correct.
Context (serialize : pyobj → result pyobj).
Context (json_dumps : pyobj → result string).
Context (str : pyobj → result string).

Abbreviation coerce := (_generate_attribute_value serialize json_dumps str).

(** The inner loop is the list comprehension of the source. *)
Lemma coerce_list items :
  coerce (PList items) = PList <$> list_comprehension coerce items.
Proof.
  simpl. f_equal. induction items as [|x l IH]; simpl; [done|].
  by rewrite IH.
Qed.

Lemma coerce_tuple items :
  coerce (PTuple items) = PList <$> list_comprehension coerce items.
Proof.
  simpl. f_equal. induction items as [|x l IH]; simpl; [done|].
  by rewrite IH.
Qed.

Lemma coerce_obj cls ident :
  coerce (PObj cls ident) = serialize_or_str serialize json_dumps str (PObj cls ident).
Proof. done. Qed.





Lemma serialize_or_str_raises obj e :
  serialize_or_str serialize json_dumps str obj = Raise e → escapes serialize json_dumps str e.
Proof.
  unfold serialize_or_str, except_Exception, escapes.
  destruct (serialize obj) as [obj'|e1] eqn:H1.
  - destruct (json_dumps obj') as [s|e2] eqn:H2; [done|].
    destruct (is_Exception e2) eqn:He2.
    + destruct (str obj') as [s|e3] eqn:Hs; simpl; [done|].
      intros [= ->]. left. by exists obj'.
    + intros [= ->]. right. split; [done|]. right. by exists obj'.
  - destruct (is_Exception e1) eqn:He1.
    + destruct (str obj) as [s|e3] eqn:Hs; simpl; [done|].
      intros [= ->]. left. by exists obj.
    + intros [= ->]. right. split; [done|]. left. by exists obj.
Qed.

Lemma coerce_raises obj e : coerce obj = Raise e → escapes serialize json_dumps str e.
Proof.
  revert e. induction obj as [s|z|f|b|items IH|items IH|cls ident]
    using pyobj_items_ind; intros e; try done.
  - rewrite coerce_list.
    destruct (list_comprehension coerce items) as [out|e'] eqn:Hl; simpl; [done|].
    intros [= ->]. apply list_comprehension_raises in Hl as (i & x & Hi & Hx).
    eapply Forall_lookup_1 in IH; [|done]. by apply IH.
  - rewrite coerce_tuple.
    destruct (list_comprehension coerce items) as [out|e'] eqn:Hl; simpl; [done|].
    intros [= ->]. apply list_comprehension_raises in Hl as (i & x & Hi & Hx).
    eapply Forall_lookup_1 in IH; [|done]. by apply IH.
  - rewrite coerce_obj. apply serialize_or_str_raises.
Qed.

(** When [str] never raises and the serializers raise [Exception]s only, the
    coercion returns on every input. *)
Lemma coercion_total :
  (∀ v, returns (str v)) →
  (∀ v e, serialize v = Raise e → is_Exception e = true) →
  (∀ v e, json_dumps v = Raise e → is_Exception e = true) →
  ∀ obj, returns (coerce obj).
Proof.
  intros Hstr Hser Hdumps obj.
  destruct (coerce obj) as [v|e] eqn:Hc; [by exists v|].
  exfalso. apply coerce_raises in Hc as [[v Hv]|[He [[v Hv]|[v Hv]]]].
  - destruct (Hstr v) as [s Hs]. congruence.
  - apply Hser in Hv. congruence.
  - apply Hdumps in Hv. congruence.
Qed.


End Coercion_correct.



(** ** The file exporter *)

Lemma string_app_assoc (a b c : string) : (a +:+ b) +:+ c = a +:+ (b +:+ c).
Proof.
  induction a as [|ch a IH]; [done|].
  change (String ch ((a +:+ b) +:+ c) = String ch (a +:+ (b +:+ c))).
  by rewrite IH.
Qed.

Lemma string_app_empty_r (a : string) : a +:+ "" = a.
Proof.
  induction a as [|ch a IH]; [done|].
  change (String ch (a +:+ "") = String ch a). by rewrite IH.
Qed.

Lemma files_kept_refl w : files_kept w w.
Proof. intros p c H. exists "". by rewrite string_app_empty_r. Qed.

Lemma files_kept_trans w1 w2 w3 :
  files_kept w1 w2 → files_kept w2 w3 → files_kept w1 w3.
Proof.
  intros H12 H23 p c H. destruct (H12 p c H) as [a Ha].
  destruct (H23 p _ Ha) as [b Hb]. exists (a +:+ b).
  by rewrite Hb, string_app_assoc.
Qed.

Lemma file_write_spec fd data w path :
  handles w !! fd = Some path →
  file_write fd data w =
    if bool_decide (String.length data ≤ free_space w)%nat
    then (Return (),
          log (EvWrite fd data)
            (set_free_space (λ n, n - String.length data)
               (set_files (λ fs, <[path := default "" (fs !! path) +:+ data]> fs) w)))
    else (Raise NoSpaceLeftError, w).
Proof. intros H. unfold file_write. by rewrite H. Qed.

(** A batch of writes that fits is written whole, in order. *)
Lemma write_all_fits fd path datas : ∀ w old,
  handles w !! fd = Some path →
  files w !! path = Some old →
  (written_size datas ≤ free_space w)%nat →
  ∃ w', for_each datas (file_write fd) w = (Return (), w')
        ∧ files w' = <[path := old +:+ written_text datas]> (files w)
        ∧ free_space w' = free_space w - written_size datas
        ∧ events w' = events w ++ (EvWrite fd <$> datas)
        ∧ handles w' = handles w
        ∧ dirs w' = dirs w
        ∧ rest_of_world w' = rest_of_world w.
Proof.
  induction datas as [|d ds IH]; intros w old Hfd Hold Hfit; simpl in *.
  - exists w. rewrite string_app_empty_r, insert_id by done.
    rewrite app_nil_r. split_and!; try done. lia.
  - unfold mbind, IO_bind. rewrite (file_write_spec _ _ _ _ Hfd).
    rewrite bool_decide_true by lia.
    set (w1 := log _ _).
    destruct (IH w1 (old +:+ d)) as (w' & Hrun & Hfiles & Hfree & Hev & Hh & Hd & Hrest).
    { done. }
    { simpl. rewrite Hold. simpl. by rewrite lookup_insert_eq. }
    { simpl. lia. }
    exists w'. rewrite Hrun. split; [done|].
    rewrite Hfiles, Hfree, Hev, Hh, Hd, Hrest. simpl. rewrite Hold. simpl.
    rewrite insert_insert_eq, string_app_assoc, <- app_assoc.
    split_and!; try done. lia.
Qed.

(** A batch that does not fit is cut short by the device. *)
Lemma write_all_overflows fd path datas : ∀ w,
  handles w !! fd = Some path →
  (free_space w < written_size datas)%nat →
  (for_each datas (file_write fd) w).1 = Raise NoSpaceLeftError.
Proof.
  induction datas as [|d ds IH]; intros w Hfd Hbig; simpl in *; [lia|].
  unfold mbind, IO_bind. rewrite (file_write_spec _ _ _ _ Hfd).
  case_bool_decide as Hd; [|done].
  set (w1 := log _ _).
  specialize (IH w1). destruct (for_each ds (file_write fd) w1) as [[u|e] w2] eqn:Hrun.
  - exfalso. simpl in IH. discriminate IH; [done|]. simpl. lia.
  - simpl in *. apply IH; [done|]. simpl. lia.
Qed.

Lemma file_write_frame fd data w :
  let w' := (file_write fd data w).2 in
  handles w' = handles w ∧ dirs w' = dirs w
  ∧ rest_of_world w' = rest_of_world w ∧ files_kept w w'.
Proof.
  unfold file_write.
  destruct (handles w !! fd) as [path|] eqn:Hfd; simpl;
    [|split_and!; try done; apply files_kept_refl].
  case_bool_decide as Hd; simpl; [|split_and!; try done; apply files_kept_refl].
  split_and!; try done.
  intros p c Hp. simpl. destruct (decide (path = p)) as [->|Hne].
  - rewrite Hp. simpl. exists data. by rewrite lookup_insert_eq.
  - exists "". by rewrite lookup_insert_ne, string_app_empty_r.
Qed.

(** Whatever happens to a batch of writes, handles, directories and the
    registry stay as they are and no file loses content. *)
Lemma write_all_frame fd datas : ∀ w,
  let w' := (for_each datas (file_write fd) w).2 in
  handles w' = handles w ∧ dirs w' = dirs w
  ∧ rest_of_world w' = rest_of_world w ∧ files_kept w w'.
Proof.
  induction datas as [|d ds IH]; intros w; simpl.
  - split_and!; try done. apply files_kept_refl.
  - unfold mbind, IO_bind.
    destruct (file_write_frame fd d w) as (Hh & Hdirs & Hrest & Hkept).
    destruct (file_write fd d w) as [[u|e] w1]; simpl in *; [|done].
    destruct (IH w1) as (Hh1 & Hdirs1 & Hrest1 & Hkept1).
    rewrite Hh1, Hdirs1, Hrest1. split_and!; try done.
    by eapply files_kept_trans.
Qed.

Lemma for_each_fmap {A B} (f : A → B) (body : B → IO unit) items :
  for_each (f <$> items) body = for_each items (λ x, body (f x)).
Proof. induction items as [|x l IH]; csimpl; [done|]. by rewrite IH. Qed.

Lemma fresh_handle w : handles w !! fresh (dom (handles w)) = None.
Proof. apply not_elem_of_dom, is_fresh. Qed.

Lemma opened_files_kept path w : files_kept w (opened path w).
Proof.
  intros p c Hp. exists "". rewrite string_app_empty_r. simpl.
  destruct (decide (path = p)) as [->|Hne].
  - rewrite Hp. simpl. by rewrite lookup_insert_eq.
  - by rewrite lookup_insert_ne.
Qed.

Section Export_correct.
Context (to_json : Span → string).

Lemma export_unfold self spans w :
  export to_json self spans w =
    match open_error (file_name self) w with
    | Some e => (Raise e, w)
    | None =>
        let fd := fresh (dom (handles w)) in
        let '(r, w') := for_each (records to_json spans) (file_write fd)
                          (opened (file_name self) w) in
        let w'' := log (EvClose fd) (set_handles (delete fd) w') in
        match r with
        | Return _ => (Return SUCCESS, w'')
        | Raise e => (Raise e, w'')
        end
    end.
Proof.
  unfold export, with_open_append, mbind, IO_bind, open_append, finally.
  destruct (open_error (file_name self) w) as [e|]; [done|].
  fold (opened (file_name self) w). unfold records. rewrite for_each_fmap.
  destruct (for_each spans _ _) as [[u|e] w']; done.
Qed.

Lemma export_open_fails self spans w e :
  open_error (file_name self) w = Some e →
  export to_json self spans w = (Raise e, w).
Proof. intros H. by rewrite export_unfold, H. Qed.

(** What a call of [export] leaves behind when the file opens and the batch
    fits on the device. *)
Lemma export_fits self spans w :
  open_error (file_name self) w = None →
  (written_size (records to_json spans) ≤ free_space w)%nat →
  let r := export to_json self spans w in
  let fd := fresh (dom (handles w)) in
  outcome r = Return SUCCESS
  ∧ files (after r)
    = <[file_name self := default "" (files w !! file_name self)
                          +:+ written_text (records to_json spans)]> (files w)
  ∧ events (after r)
    = events w ++ [EvOpen (file_name self) fd]
        ++ (EvWrite fd <$> records to_json spans) ++ [EvClose fd]
  ∧ handles (after r) = handles w
  ∧ free_space (after r) = free_space w - written_size (records to_json spans)
  ∧ dirs (after r) = dirs w
  ∧ rest_of_world (after r) = rest_of_world w.
Proof.
  intros Hopen Hfit. rewrite export_unfold, Hopen. cbv zeta.
  set (fd := fresh (dom (handles w))). set (path := file_name self).
  destruct (write_all_fits fd path (records to_json spans) (opened path w)
              (default "" (files w !! path)))
    as (w' & Hrun & Hfiles & Hfree & Hev & Hh & Hd & Hrest).
  { simpl. by rewrite lookup_insert_eq. }
  { simpl. by rewrite lookup_insert_eq. }
  { done. }
  rewrite Hrun. unfold outcome, after. split_and!; simpl; try done.
  - rewrite Hfiles. simpl. by rewrite insert_insert_eq.
  - rewrite Hev. simpl. by rewrite <- !app_assoc.
  - rewrite Hh. simpl. by rewrite delete_insert_id by apply fresh_handle.
Qed.

Lemma export_overflows self spans w :
  open_error (file_name self) w = None →
  (free_space w < written_size (records to_json spans))%nat →
  outcome (export to_json self spans w) = Raise NoSpaceLeftError.
Proof.
  intros Hopen Hbig. rewrite export_unfold, Hopen. cbv zeta.
  set (fd := fresh (dom (handles w))). set (path := file_name self).
  pose proof (write_all_overflows fd path (records to_json spans) (opened path w))
    as Hrun.
  destruct (for_each _ _ _) as [r w']. simpl in Hrun.
  rewrite Hrun; [done| |done].
  by rewrite lookup_insert_eq.
Qed.

(** However a call of [export] ends, no handle stays open, no file loses
    content, and directories and registry are untouched. *)
Lemma export_frame self spans w :
  let w' := after (export to_json self spans w) in
  handles w' = handles w ∧ files_kept w w' ∧ dirs w' = dirs w
  ∧ rest_of_world w' = rest_of_world w.
Proof.
  rewrite export_unfold.
  destruct (open_error (file_name self) w) as [e|]; simpl.
  { split_and!; try done. apply files_kept_refl. }
  set (fd := fresh (dom (handles w))). set (path := file_name self).
  destruct (write_all_frame fd (records to_json spans) (opened path w))
    as (Hh & Hd & Hrest & Hkept).
  destruct (for_each _ _ _) as [r w']. simpl in *.
  assert (handles (log (EvClose fd) (set_handles (delete fd) w')) = handles w) as Hh'.
  { simpl. rewrite Hh. by apply delete_insert_id, fresh_handle. }
  assert (files_kept w (log (EvClose fd) (set_handles (delete fd) w'))) as Hk'.
  { eapply files_kept_trans; [apply (opened_files_kept path)|]. exact Hkept. }
  destruct r; simpl; split_and!; done.
Qed.

Lemma records_lookup spans i span :
  spans !! i = Some span →
  records to_json spans !! i = Some (to_json span +:+ newline).
Proof. intros H. unfold records. by rewrite list_lookup_fmap, H. Qed.

(** C4: when the file opens and the batch fits, one call of [export] returns
    SUCCESS and the file holds what it held followed by one line per span,
    [to_json(span)] and a newline, in batch order; the call opened the file,
    wrote the lines and closed it, so the open handles are those from before;
    and no file has lost content. *)
Theorem export_appends_one_line_per_span self spans w :
  open_error (file_name self) w = None →
  (written_size (records to_json spans) ≤ free_space w)%nat →
  let r := export to_json self spans w in
  let fd := fresh (dom (handles w)) in
  outcome r = Return SUCCESS
  ∧ files (after r)
    = <[file_name self := default "" (files w !! file_name self)
                          +:+ written_text (records to_json spans)]> (files w)
  ∧ length (records to_json spans) = length spans
  ∧ (∀ i span, spans !! i = Some span →
       records to_json spans !! i = Some (to_json span +:+ newline))
  ∧ events (after r)
    = events w ++ [EvOpen (file_name self) fd]
        ++ (EvWrite fd <$> records to_json spans) ++ [EvClose fd]
  ∧ handles (after r) = handles w
  ∧ files_kept w (after r).
Proof.
  intros Hopen Hfit r fd.
  destruct (export_fits self spans w Hopen Hfit)
    as (Hout & Hfiles & Hev & Hh & _).
  destruct (export_frame self spans w) as (_ & Hkept & _).
  split_and!; try done.
  - unfold records. by rewrite length_fmap.
  - apply records_lookup.
Qed.

(** C1, as amended: [export] never returns FAILURE; it returns SUCCESS when
    the file opens and every write completes, and otherwise the exception of
    the failed [open] or [write] leaves [export] and reaches the caller. *)
Theorem export_returns_success_or_raises self spans w :
  outcome (export to_json self spans w) ≠ Return FAILURE
  ∧ (∀ e, open_error (file_name self) w = Some e →
       outcome (export to_json self spans w) = Raise e)
  ∧ (open_error (file_name self) w = None →
     (free_space w < written_size (records to_json spans))%nat →
     outcome (export to_json self spans w) = Raise NoSpaceLeftError)
  ∧ (open_error (file_name self) w = None →
     (written_size (records to_json spans) ≤ free_space w)%nat →
     outcome (export to_json self spans w) = Return SUCCESS).
Proof.
  split_and!.
  - rewrite export_unfold.
    destruct (open_error (file_name self) w) as [e|]; [done|]. cbv zeta.
    destruct (for_each _ _ _) as [[u|e] w']; done.
  - intros e He. by rewrite (export_open_fails _ _ _ _ He).
  - apply export_overflows.
  - intros Hopen Hfit. by destruct (export_fits self spans w Hopen Hfit) as [-> _].
Qed.

End Export_correct.

(** ** Constructing the file exporter *)

Lemma drop_leading_nil_iff p l :
  drop_leading p l = [] ↔ forallb p l = true.
Proof.
  induction l as [|c l IH]; simpl; [done|].
  destruct (p c); simpl; [done|]. split; done.
Qed.

Lemma forallb_reverse {A} (p : A → bool) (l : list A) :
  forallb p (reverse l) = forallb p l.
Proof.
  induction l as [|x l IH]; [done|].
  rewrite reverse_cons, forallb_app, IH. simpl.
  destruct (p x), (forallb p l); done.
Qed.

Lemma forallb_not_sep l :
  forallb (λ c, negb (is_sep c)) l = true ↔ sep ∉ l.
Proof.
  induction l as [|c l IH]; simpl.
  - split; [|done]. intros _ H. by apply elem_of_nil in H.
  - rewrite andb_true_iff, IH, not_elem_of_cons, negb_true_iff.
    unfold is_sep. rewrite bool_decide_eq_false.
    split; intros [Hc Hl]; (split; [congruence|done]).
Qed.

Lemma string_of_list_ascii_nil l : string_of_list_ascii l = "" ↔ l = [].
Proof. destruct l; simpl; split; done. Qed.

Lemma reverse_nil_iff {A} (l : list A) : reverse l = [] ↔ l = [].
Proof.
  split; [|by intros ->].
  intros H. apply (f_equal length) in H. rewrite length_reverse in H.
  by destruct l.
Qed.

(** [dirname] is empty exactly for a name without a separator. *)
Lemma dirname_empty_iff f : dirname f = "" ↔ sep ∉ list_ascii_of_string f.
Proof.
  unfold dirname, os_path_split. simpl. rewrite string_of_list_ascii_nil.
  set (r := reverse (list_ascii_of_string f)).
  set (head := reverse (drop_leading _ r)).
  assert (head = [] ↔ sep ∉ list_ascii_of_string f) as Hhead.
  { unfold head. rewrite reverse_nil_iff, drop_leading_nil_iff, forallb_not_sep.
    unfold r. by rewrite elem_of_reverse. }
  case_bool_decide as Hnil; simpl; [done|].
  destruct (forallb is_sep head) eqn:Hall; simpl; [done|].
  rewrite <- Hhead. split; [|done].
  unfold rstrip_sep. rewrite reverse_nil_iff, drop_leading_nil_iff, forallb_reverse.
  congruence.
Qed.

Lemma path_exists_empty w : path_exists "" w = false.
Proof. done. Qed.

Lemma os_makedirs_empty w : os_makedirs "" w = (Raise FileNotFoundError, w).
Proof. done. Qed.

Lemma IO_bind_returns {A B} (m : IO A) (f : A → IO B) w b w' :
  (m ≫= f) w = (Return b, w') →
  ∃ a w1, m w = (Return a, w1) ∧ f a w1 = (Return b, w').
Proof.
  unfold mbind, IO_bind. destruct (m w) as [[a|e] w1]; [|done].
  intros H. by exists a, w1.
Qed.

Lemma os_mkdir_returns name w u w' :
  os_mkdir name w = (Return u, w') → name ∈ dirs w'.
Proof.
  unfold os_mkdir. destruct (mkdir_error name w); [done|].
  intros [= _ <-]. simpl. set_solver.
Qed.

Lemma makedirs_unfold depth name :
  makedirs (S depth) name =
    let '(head, tail) := os_path_split name in
    let '(head, tail) :=
      if bool_decide (tail = "") then os_path_split head else (head, tail) in
    head_exists ← os_path_exists head;
    (if negb (bool_decide (head = "")) && negb (bool_decide (tail = ""))
        && negb head_exists
     then pass_on FileExistsError (makedirs depth head)
     else mret ());;
    os_mkdir name.
Proof. done. Qed.

Lemma makedirs_returns depth name w u w' :
  makedirs depth name w = (Return u, w') → name ∈ dirs w'.
Proof.
  destruct depth as [|depth]; [done|]. rewrite makedirs_unfold.
  destruct (os_path_split name) as [head tail].
  destruct (if bool_decide (tail = "") then os_path_split head else (head, tail))
    as [head' tail'].
  intros H. apply IO_bind_returns in H as (found & w1 & _ & H).
  apply IO_bind_returns in H as (? & w2 & _ & H).
  by eapply os_mkdir_returns.
Qed.

Lemma take_drop_leading p l : take_leading p l ++ drop_leading p l = l.
Proof.
  induction l as [|c l IH]; simpl; [done|].
  destruct (p c); simpl; [by rewrite IH|done].
Qed.

Lemma drop_leading_length p l : length (drop_leading p l) ≤ length l.
Proof.
  induction l as [|c l IH]; simpl; [done|]. destruct (p c); simpl; lia.
Qed.

Lemma string_of_list_ascii_length l :
  String.length (string_of_list_ascii l) = length l.
Proof. induction l as [|c l IH]; simpl; [done|]. by rewrite IH. Qed.

Lemma list_ascii_of_string_length s :
  length (list_ascii_of_string s) = String.length s.
Proof. induction s as [|c s IH]; simpl; [done|]. by rewrite IH. Qed.

(** Head and tail of a split are parts of the path. *)
Lemma os_path_split_length p head tail :
  os_path_split p = (head, tail) →
  String.length head + String.length tail ≤ String.length p.
Proof.
  unfold os_path_split. intros [= <- <-].
  rewrite !string_of_list_ascii_length, <- (list_ascii_of_string_length p).
  set (r := reverse (list_ascii_of_string p)).
  assert (length (take_leading (λ c, negb (is_sep c)) r)
          + length (drop_leading (λ c, negb (is_sep c)) r)
          = length (list_ascii_of_string p)) as Hsum.
  { rewrite <- length_app, take_drop_leading. apply length_reverse. }
  rewrite length_reverse.
  set (head := reverse (drop_leading _ r)) in *.
  assert (length head = length (drop_leading (λ c, negb (is_sep c)) r)) as Hh
    by apply length_reverse.
  destruct (negb (bool_decide (head = [])) && negb (forallb is_sep head)).
  - unfold rstrip_sep. rewrite length_reverse.
    pose proof (drop_leading_length is_sep (reverse head)) as Hle.
    rewrite length_reverse in Hle. lia.
  - lia.
Qed.

Lemma string_length_pos (s : string) : s ≠ "" → 0 < String.length s.
Proof. destruct s; simpl; [done|lia]. Qed.

Lemma os_mkdir_raises name w e :
  outcome (os_mkdir name w) = Raise e → e ≠ RecursionError.
Proof.
  unfold os_mkdir, mkdir_error, parent_error, outcome.
  repeat case_bool_decide; simpl; try (by intros [= <-]);
    destruct (path_exists name w); simpl; try (by intros [= <-]);
    destruct (entry (dirname name) w) as [[]|]; simpl; by intros [= <-].
Qed.

(** A depth above the length of the name is never exhausted: [makedirs]
    does not end in the [RecursionError] of the bound. *)
Lemma makedirs_depth_suffices depth : ∀ name w e,
  String.length name < depth →
  outcome (makedirs depth name w) = Raise e → e ≠ RecursionError.
Proof.
  induction depth as [|depth IH]; intros name w e Hlen; [lia|].
  rewrite makedirs_unfold.
  destruct (os_path_split name) as [head tail] eqn:Hsplit.
  apply os_path_split_length in Hsplit.
  destruct (if bool_decide (tail = "") then os_path_split head else (head, tail))
    as [head' tail'] eqn:Hsplit'.
  assert (tail' ≠ "" → String.length head' < depth) as Hshort.
  { intros Hne%string_length_pos. case_bool_decide.
    - apply os_path_split_length in Hsplit'. lia.
    - injection Hsplit' as <- <-. lia. }
  unfold mbind, IO_bind, os_path_exists, get.
  destruct (negb (bool_decide (head' = "")) && negb (bool_decide (tail' = ""))
            && negb (path_exists head' w)) eqn:Hcond.
  - apply andb_true_iff in Hcond as [[_ Htail]%andb_true_iff _].
    apply negb_true_iff, bool_decide_eq_false in Htail.
    unfold pass_on.
    pose proof (IH head' w) as Hinner.
    destruct (makedirs depth head' w) as [[u|e'] w1]; simpl.
    + apply os_mkdir_raises.
    + destruct (bool_decide (e' = FileExistsError)); simpl.
      * apply os_mkdir_raises.
      * intros [= <-]. apply (Hinner e'); [by apply Hshort|done].
  - simpl. apply os_mkdir_raises.
Qed.

Lemma os_makedirs_never_exhausts name w e :
  outcome (os_makedirs name w) = Raise e → e ≠ RecursionError.
Proof. apply makedirs_depth_suffices. lia. Qed.

Lemma drop_leading_head p l c r : drop_leading p l = c :: r → p c = false.
Proof.
  induction l as [|x l IH]; simpl; [done|].
  destruct (p x) eqn:Hx; [done|]. by intros [= <- _].
Qed.

(** A [dirname] that is neither empty nor the root ends in a name. *)
Lemma basename_of_dirname path :
  dirname path ≠ "" → is_root (dirname path) = false →
  basename (dirname path) ≠ "".
Proof.
  unfold dirname at 1 2 3. unfold os_path_split at 1 2 3. simpl.
  set (head := reverse (drop_leading _ (reverse (list_ascii_of_string path)))).
  destruct (negb (bool_decide (head = [])) && negb (forallb is_sep head)) eqn:Hcond.
  - intros _ _. apply andb_true_iff in Hcond as [_ Hall%negb_true_iff].
    unfold basename, os_path_split. simpl.
    rewrite list_ascii_of_string_of_list_ascii. unfold rstrip_sep.
    rewrite reverse_involutive.
    destruct (drop_leading is_sep (reverse head)) as [|c r] eqn:Hdrop.
    { apply drop_leading_nil_iff in Hdrop. rewrite forallb_reverse in Hdrop.
      congruence. }
    apply drop_leading_head in Hdrop. simpl. rewrite Hdrop. simpl.
    rewrite string_of_list_ascii_nil, reverse_nil_iff. done.
  - intros Hne Hroot. exfalso. unfold is_root in Hroot.
    rewrite list_ascii_of_string_of_list_ascii in Hroot.
    rewrite (bool_decide_false (string_of_list_ascii head = "")) in Hroot by done.
    simpl in Hroot. rewrite Hroot in Hcond.
    rewrite string_of_list_ascii_nil in Hne.
    by rewrite (bool_decide_false (head = [])) in Hcond.
Qed.

(** Making one missing directory whose parent is there. *)
Lemma os_makedirs_one_level name w :
  name ≠ "" → basename name ≠ "" → path_exists name w = false →
  parent_error name w = None →
  os_makedirs name w
  = (Return (), log (EvMkdir name) (set_dirs (λ d, {[name]} ∪ d) w)).
Proof.
  intros Hname Hbase Hex Hparent. unfold os_makedirs. rewrite makedirs_unfold.
  assert (os_mkdir name w
          = (Return (), log (EvMkdir name) (set_dirs (λ d, {[name]} ∪ d) w)))
    as Hmkdir.
  { unfold os_mkdir, mkdir_error.
    rewrite (bool_decide_false (name = "")) by done. by rewrite Hex, Hparent. }
  unfold basename in Hbase. unfold parent_error, dirname in Hparent.
  destruct (os_path_split name) as [head tail]. simpl in Hbase, Hparent.
  rewrite (bool_decide_false (tail = "")) by done.
  unfold mbind, IO_bind, os_path_exists, get.
  destruct (bool_decide (head = "")) eqn:Hhead; simpl.
  - exact Hmkdir.
  - rewrite (bool_decide_false (tail = "")) by done.
    unfold path_exists.
    destruct (entry head w) as [[]|]; [|done|done].
    rewrite bool_decide_true by (by eexists). simpl. exact Hmkdir.
Qed.


Lemma init_unfold file_name w :
  __init__ file_name w =
    if path_exists (dirname file_name) w
    then (Return (mkFileSpanExporter file_name), w)
    else match os_makedirs (dirname file_name) w with
         | (Return _, w') => (Return (mkFileSpanExporter file_name), w')
         | (Raise e, w') => (Raise e, w')
         end.
Proof.
  unfold __init__, mbind, IO_bind, os_path_exists, get. simpl.
  destruct (path_exists (dirname file_name) w); simpl; [done|].
  by destruct (os_makedirs (dirname file_name) w) as [[u|e] w'].
Qed.

(** C9: a file name without a separator has an empty [dirname], which does
    not exist and which [os.makedirs] refuses, so constructing the exporter
    (and with it [add_file_span_exporter]) raises and changes nothing; a
    construction that returns had a non-empty [dirname], which exists
    afterwards and is a new directory if it was absent; with an existing
    [dirname] the construction returns and changes nothing; and a missing
    [dirname] whose own parent is there is made, and the construction
    returns. *)
Theorem bare_file_name_is_refused :
  (∀ path, dirname path = "" ↔ sep ∉ list_ascii_of_string path)
  ∧ (∀ path w, dirname path = "" →
       __init__ path w = (Raise FileNotFoundError, w)
       ∧ add_file_span_exporter path w = (Raise FileNotFoundError, w))
  ∧ (∀ path w self w', __init__ path w = (Return self, w') →
       file_name self = path
       ∧ dirname path ≠ ""
       ∧ path_exists (dirname path) w' = true
       ∧ (path_exists (dirname path) w = false → dirname path ∈ dirs w'))
  ∧ (∀ path w, path_exists (dirname path) w = true →
       __init__ path w = (Return (mkFileSpanExporter path), w))
  ∧ (∀ path w, dirname path ≠ "" → path_exists (dirname path) w = false →
       parent_error (dirname path) w = None →
       __init__ path w
       = (Return (mkFileSpanExporter path),
          log (EvMkdir (dirname path)) (set_dirs (λ d, {[dirname path]} ∪ d) w))).
Proof.
  split_and!.
  - exact dirname_empty_iff.
  - intros f w Hd.
    assert (__init__ f w = (Raise FileNotFoundError, w)) as Hinit.
    { by rewrite init_unfold, Hd, path_exists_empty, os_makedirs_empty. }
    split; [done|]. unfold add_file_span_exporter, mbind, IO_bind.
    by rewrite Hinit.
  - intros f w self w'. rewrite init_unfold.
    destruct (path_exists (dirname f) w) eqn:Hex.
    + intros [= <- <-]. split_and!; try done.
      intros Hd. by rewrite Hd, path_exists_empty in Hex.
    + destruct (os_makedirs (dirname f) w) as [[u|e] w1] eqn:Hmk; [|done].
      intros [= <- <-].
      assert (dirname f ≠ "") as Hne.
      { intros Hd. by rewrite Hd, os_makedirs_empty in Hmk. }
      apply makedirs_returns in Hmk.
      split_and!; try done.
      unfold path_exists, entry.
      rewrite (bool_decide_false (dirname f = "")) by done.
      rewrite (bool_decide_true (dirname f ∈ dirs w1)) by done.
      rewrite orb_true_r. apply bool_decide_true. by eexists.
  - intros f w Hex. by rewrite init_unfold, Hex.
  - intros f w Hne Hex Hparent. rewrite init_unfold, Hex.
    rewrite os_makedirs_one_level; try done.
    apply basename_of_dirname; [done|].
    destruct (is_root (dirname f)) eqn:Hroot; [|done].
    unfold path_exists, entry in Hex.
    rewrite (bool_decide_false (dirname f = "")) in Hex by done.
    rewrite Hroot in Hex. simpl in Hex. done.
Qed.

(** ** The registry *)

Global Instance grows_preorder : PreOrder grows.
Proof.
  split.
  - intros w. by split_and!.
  - intros w1 w2 w3 (Hp & Ha & Hi) (Hp' & Ha' & Hi'). split_and!.
    + by etrans.
    + auto.
    + intros Hsome. rewrite Hi', Hi; [done|done|].
      apply Hi in Hsome as Heq. unfold identity in Heq.
      destruct Hsome as [inst Hinst]. rewrite Hinst in Heq.
      destruct (_instance w2); [by eexists|done].
Qed.

Lemma grows_same_instance w w' : _instance w' = _instance w →
  instances_created w' = instances_created w → grows w w'.
Proof.
  intros Hi Hc. unfold grows, registered, at_most_one, identity.
  rewrite Hi, Hc. by split_and!.
Qed.

Section Preserves.
Context (R : relation world) `{!PreOrder R}.

Lemma preserves_ret {A} (a : A) : preserves R (mret a).
Proof. intros w. simpl. reflexivity. Qed.

Lemma preserves_raise {A} e : preserves R (@raise A e).
Proof. intros w. simpl. reflexivity. Qed.

Lemma preserves_lift {A} (r : result A) : preserves R (lift r).
Proof. intros w. simpl. reflexivity. Qed.

Lemma preserves_get {A} (f : world → A) : preserves R (get f).
Proof. intros w. simpl. reflexivity. Qed.

Lemma preserves_bind {A B} (m : IO A) (f : A → IO B) :
  preserves R m → (∀ a, preserves R (f a)) → preserves R (m ≫= f).
Proof.
  intros Hm Hf w. unfold mbind, IO_bind. specialize (Hm w).
  destruct (m w) as [[a|e] w1]; simpl in *; [|done].
  etrans; [exact Hm|]. apply Hf.
Qed.

Lemma preserves_for_each {A} (items : list A) (body : A → IO unit) :
  (∀ x, preserves R (body x)) → preserves R (for_each items body).
Proof.
  intros Hbody. induction items as [|x l IH]; simpl.
  - apply preserves_ret.
  - apply preserves_bind; [apply Hbody|]. by intros _.
Qed.

Lemma preserves_pass_on cls (body : IO unit) :
  preserves R body → preserves R (pass_on cls body).
Proof.
  intros Hb w. unfold pass_on. specialize (Hb w).
  destruct (body w) as [[u|e] w1]; simpl in *; [done|].
  by case_bool_decide.
Qed.

Lemma preserves_if {A} (b : bool) (m1 m2 : IO A) :
  preserves R m1 → preserves R m2 → preserves R (if b then m1 else m2).
Proof. by destruct b. Qed.

End Preserves.

Lemma preserves_modify (f : world → world) :
  (∀ w, _instance (f w) = _instance w) →
  (∀ w, instances_created (f w) = instances_created w) →
  preserves grows (modify f).
Proof. intros Hi Hc w. simpl. by apply grows_same_instance. Qed.

Lemma os_mkdir_grows name : preserves grows (os_mkdir name).
Proof.
  intros w. unfold os_mkdir. destruct (mkdir_error name w); simpl; [done|].
  by apply grows_same_instance.
Qed.

Lemma makedirs_grows depth : ∀ name, preserves grows (makedirs depth name).
Proof.
  induction depth as [|depth IH]; intros name.
  - intros w. simpl. reflexivity.
  - rewrite makedirs_unfold.
    destruct (os_path_split name) as [head tail].
    destruct (if bool_decide (tail = "") then os_path_split head else (head, tail))
      as [head' tail'].
    apply (preserves_bind grows); [apply (preserves_get grows)|]. intros found.
    apply (preserves_bind grows); [|intros _; apply os_mkdir_grows].
    apply (preserves_if grows); [apply (preserves_pass_on grows); [apply IH]|].
    apply (preserves_ret grows).
Qed.

Lemma init_grows path : preserves grows (__init__ path).
Proof.
  unfold __init__.
  apply (preserves_bind grows); [apply (preserves_get grows)|]. intros found.
  apply (preserves_bind grows); [|intros _; apply (preserves_ret grows)].
  apply (preserves_if grows); [apply makedirs_grows|apply (preserves_ret grows)].
Qed.

Lemma get_instance_grows : preserves grows get_instance.
Proof.
  intros w. unfold get_instance.
  destruct (_instance w) as [inst|] eqn:Hi; simpl; [done|].
  unfold grows, registered, at_most_one, identity. simpl. rewrite Hi.
  split_and!; try done. by intros ->.
Qed.

Lemma append_grows self p : preserves grows (_span_processors_append self p).
Proof.
  intros w. unfold _span_processors_append.
  destruct (_instance w) as [inst|] eqn:Hi; simpl; [|done].
  case_bool_decide; simpl; [|done].
  unfold grows, registered, at_most_one, identity. simpl. rewrite Hi. simpl.
  split_and!; try done. by apply prefix_app_r.
Qed.

Lemma provider_add_grows p : preserves grows (provider_add_span_processor p).
Proof.
  intros w. unfold provider_add_span_processor.
  destruct (tracer_provider w); simpl; [|done]. by apply grows_same_instance.
Qed.

Lemma new_processor_grows e : preserves grows (new_BatchSpanProcessor e).
Proof. intros w. by apply grows_same_instance. Qed.

Lemma add_span_exporter_grows e : preserves grows (add_span_exporter e).
Proof.
  unfold add_span_exporter.
  apply (preserves_bind grows); [apply new_processor_grows|]. intros p.
  apply (preserves_bind grows); [apply get_instance_grows|]. intros self.
  apply (preserves_bind grows); [apply append_grows|]. intros _.
  apply provider_add_grows.
Qed.

Lemma on_span_grows ref f : preserves grows (on_span ref f).
Proof.
  destruct ref as [i|]; simpl; [|apply (preserves_ret grows)].
  by apply preserves_modify.
Qed.

Lemma span_processors_of_grows self : preserves grows (_span_processors_of self).
Proof.
  intros w. unfold _span_processors_of.
  destruct (_instance w); simpl; [|done]. by case_bool_decide.
Qed.

Lemma shutdown_grows p : preserves grows (shutdown p).
Proof. by apply preserves_modify. Qed.

Lemma close_grows : preserves grows close.
Proof.
  unfold close.
  apply (preserves_bind grows); [apply get_instance_grows|]. intros self.
  apply (preserves_bind grows); [apply span_processors_of_grows|]. intros ps.
  apply (preserves_for_each grows); []. apply shutdown_grows.
Qed.

Lemma for_each_shutdown ps : ∀ w, for_each ps shutdown w = (Return (), shut ps w).
Proof.
  induction ps as [|p ps IH]; intros w; simpl; [done|].
  unfold mbind, IO_bind. simpl. apply IH.
Qed.

Lemma shut_events ps : ∀ w,
  events (shut ps w) = events w ++ ((λ p, EvShutdown (processor_id p)) <$> ps).
Proof.
  induction ps as [|p ps IH]; intros w; simpl.
  - by rewrite app_nil_r.
  - rewrite IH. simpl. by rewrite <- app_assoc.
Qed.

Lemma shut_registry ps : ∀ w,
  _instance (shut ps w) = _instance w
  ∧ tracer_provider (shut ps w) = tracer_provider w
  ∧ processors_created (shut ps w) = processors_created w
  ∧ instances_created (shut ps w) = instances_created w.
Proof.
  induction ps as [|p ps IH]; intros w; simpl; [done|].
  destruct (IH (log (EvShutdown (processor_id p)) w)) as (-> & -> & -> & ->).
  done.
Qed.

Lemma get_instance_existing w inst :
  _instance w = Some inst → get_instance w = (Return (object_id inst), w).
Proof. intros H. unfold get_instance. by rewrite H. Qed.

(** After [get_instance] there is an instance, it is the one returned, and
    the registered processors and the log are what they were. *)
Lemma get_instance_returns w :
  ∃ inst, get_instance w = (Return (object_id inst), after (get_instance w))
          ∧ _instance (after (get_instance w)) = Some inst
          ∧ _span_processors inst = registered w
          ∧ events (after (get_instance w)) = events w
          ∧ processors_created (after (get_instance w)) = processors_created w
          ∧ spans (after (get_instance w)) = spans w
          ∧ current_span (after (get_instance w)) = current_span w.
Proof.
  unfold get_instance, registered.
  destruct (_instance w) as [inst|] eqn:Hi; simpl.
  - exists inst. by rewrite Hi.
  - by exists (mkOpenTelemetryTracer (instances_created w) __name__ []).
Qed.

Lemma get_instance_again w :
  get_instance (after (get_instance w)) = get_instance w.
Proof.
  destruct (get_instance_returns w) as (inst & Hrun & Hinst & _).
  by rewrite (get_instance_existing _ _ Hinst), Hrun at 1.
Qed.

Lemma close_unfold w :
  close w = (Return (), shut (registered w) (after (get_instance w))).
Proof.
  unfold close, mbind, IO_bind.
  destruct (get_instance_returns w) as (inst & Hrun & Hinst & Hps & _).
  rewrite Hrun. unfold _span_processors_of. rewrite Hinst.
  rewrite bool_decide_true by done. rewrite Hps. apply for_each_shutdown.
Qed.

Lemma close_registered w : registered (after (close w)) = registered w.
Proof.
  rewrite close_unfold. unfold after. simpl. unfold registered at 1.
  destruct (shut_registry (registered w) (get_instance w).2) as (-> & _).
  destruct (get_instance_returns w) as (inst & _ & Hinst & Hps & _).
  unfold after in Hinst. by rewrite Hinst.
Qed.

Lemma close_events w :
  events (after (close w))
  = events w ++ ((λ p, EvShutdown (processor_id p)) <$> registered w).
Proof.
  rewrite close_unfold. unfold after. simpl. rewrite shut_events.
  destruct (get_instance_returns w) as (inst & _ & _ & _ & Hev & _).
  unfold after in Hev. by rewrite Hev.
Qed.

(** What [add_span_exporter] leaves registered, however it ends. *)
Lemma add_span_exporter_registered e w :
  registered (after (add_span_exporter e w))
  = registered w ++ [mkBatchSpanProcessor (processors_created w) e].
Proof.
  unfold add_span_exporter, mbind, IO_bind, new_BatchSpanProcessor,
    get_instance, _span_processors_append, provider_add_span_processor,
    registered, after.
  simpl. destruct (_instance w) as [inst|] eqn:Hi; simpl.
  - rewrite Hi. rewrite bool_decide_true by done. simpl.
    destruct (tracer_provider w); done.
  - rewrite bool_decide_true by done. simpl.
    destruct (tracer_provider w); done.
Qed.

(** C7: [close] returns, and what it adds to the log is one [shutdown] per
    registered processor, in registration order: as many calls as there are
    processors, the i-th of them on the i-th processor. *)
Theorem close_shuts_down_every_processor w :
  let r := close w in
  let calls := (λ p, EvShutdown (processor_id p)) <$> registered w in
  outcome r = Return ()
  ∧ events (after r) = events w ++ calls
  ∧ length calls = length (registered w)
  ∧ (∀ i p, registered w !! i = Some p →
       calls !! i = Some (EvShutdown (processor_id p))).
Proof.
  cbv zeta. split_and!.
  - by rewrite close_unfold.
  - apply close_events.
  - by rewrite length_fmap.
  - intros i p Hp. by rewrite list_lookup_fmap, Hp.
Qed.

(** C6: in a registry as the class leaves it, [add_span_exporter] returns
    after it built a processor around the given exporter that was not
    registered before, put it at the end of the registered processors, one
    more than before, and added it to the processors of the tracer provider;
    the registry is again as the class leaves it, so a further exporter gets
    a further processor of its own. *)
Theorem add_span_exporter_registers_new_processor exporter w :
  registry_ok w →
  let r := add_span_exporter exporter w in
  let p := mkBatchSpanProcessor (processors_created w) exporter in
  outcome r = Return ()
  ∧ span_exporter p = exporter
  ∧ (p ∉ registered w)
  ∧ registered (after r) = registered w ++ [p]
  ∧ length (registered (after r)) = S (length (registered w))
  ∧ tracer_provider (after r) = Some (default [] (tracer_provider w) ++ [p])
  ∧ registry_ok (after r)
  ∧ (∀ exporter',
       let r' := add_span_exporter exporter' (after r) in
       let p' := mkBatchSpanProcessor (S (processors_created w)) exporter' in
       outcome r' = Return ()
       ∧ registered (after r') = registered w ++ [p; p']
       ∧ (p' ≠ p)).
Proof.
  assert (∀ e w0, registry_ok w0 →
    outcome (add_span_exporter e w0) = Return ()
    ∧ tracer_provider (after (add_span_exporter e w0))
      = Some (default [] (tracer_provider w0)
              ++ [mkBatchSpanProcessor (processors_created w0) e])
    ∧ processors_created (after (add_span_exporter e w0))
      = S (processors_created w0)
    ∧ is_Some (_instance (after (add_span_exporter e w0)))) as Hrun.
  { intros e w0 [Hprov _].
    unfold add_span_exporter, mbind, IO_bind, new_BatchSpanProcessor,
      get_instance, _span_processors_append, provider_add_span_processor,
      outcome, after.
    simpl. destruct (_instance w0) as [inst|] eqn:Hi; simpl.
    - rewrite Hi. rewrite bool_decide_true by done. simpl.
      destruct Hprov as [ps Hps]; [by eexists|]. rewrite Hps. simpl.
      split_and!; try done; by eexists.
    - rewrite bool_decide_true by done. simpl.
      destruct (tracer_provider w0); simpl; split_and!; try done; by eexists. }
  assert (∀ e w0, registry_ok w0 → registry_ok (after (add_span_exporter e w0)))
    as Hok.
  { intros e w0 Hw0. destruct (Hrun e w0 Hw0) as (_ & Hp & Hc & Hi).
    destruct Hw0 as [_ Hids]. split.
    - intros _. rewrite Hp. by eexists.
    - intros q. rewrite add_span_exporter_registered, Hc.
      intros [Hq| ->%list_elem_of_singleton]%elem_of_app.
      + apply Hids in Hq. lia.
      + simpl. lia. }
  intros Hw r p.
  destruct (Hrun exporter w Hw) as (Hout & Hp & Hc & _).
  assert (p ∉ registered w) as Hfresh.
  { intros Hin. destruct Hw as [_ Hids]. apply Hids in Hin. simpl in Hin. lia. }
  split_and!; try done.
  - apply add_span_exporter_registered.
  - unfold r. rewrite add_span_exporter_registered, length_app. simpl. lia.
  - by apply Hok.
  - intros e' r' p'. destruct (Hrun e' (after r) (Hok _ _ Hw)) as (Hout' & _).
    split_and!; try done.
    + unfold r', r. rewrite !add_span_exporter_registered, Hc, <- app_assoc. done.
    + unfold p', p. intros [= Hid _]. lia.
Qed.

Section Registry_correct.
Context (serialize : pyobj → result pyobj).
Context (json_dumps : pyobj → result string).
Context (str : pyobj → result string).

Abbreviation coerce := (_generate_attribute_value serialize json_dumps str).
Abbreviation do := (perform serialize json_dumps str).
Abbreviation do_all := (run_calls serialize json_dumps str).

Lemma set_attribute_unfold key value w :
  set_attribute serialize json_dumps str key value w =
    let w1 := after (get_instance w) in
    match coerce value with
    | Raise e => (Raise e, w1)
    | Return a =>
        (Return (),
         match current_span w with
         | Some i => set_spans (alter (Span_set_attribute key a) i) w1
         | None => w1
         end)
    end.
Proof.
  unfold set_attribute, mbind, IO_bind, lift.
  destruct (get_instance_returns w) as (inst & Hrun & Hinst & _ & _ & _ & _ & Hcur).
  rewrite Hrun. cbv zeta.
  destruct (coerce value) as [a|e]; [|done].
  rewrite (get_instance_existing _ _ Hinst).
  unfold get_current_span, trace_get_current_span, get. rewrite Hcur.
  by destruct (current_span w).
Qed.


Lemma set_attribute_grows key value :
  preserves grows (set_attribute serialize json_dumps str key value).
Proof.
  unfold set_attribute.
  apply (preserves_bind grows); [apply get_instance_grows|]. intros _.
  apply (preserves_bind grows); [apply (preserves_lift grows)|]. intros a.
  apply (preserves_bind grows); [apply get_instance_grows|]. intros _.
  apply (preserves_bind grows); [apply (preserves_get grows)|]. intros span.
  apply on_span_grows.
Qed.

Lemma mark_grows code :
  preserves grows (get_instance;; span ← get_current_span;
                   on_span span (Span_set_status code)).
Proof.
  apply (preserves_bind grows); [apply get_instance_grows|]. intros _.
  apply (preserves_bind grows); [apply (preserves_get grows)|]. intros span.
  apply on_span_grows.
Qed.

(** Every call of the class keeps the registry growing. *)
Lemma perform_grows c : preserves grows (do c).
Proof.
  destruct c; simpl.
  - apply (preserves_bind grows); [apply get_instance_grows|].
    intros _. apply (preserves_ret grows).
  - apply (preserves_bind grows); [apply get_instance_grows|].
    intros _. apply (preserves_ret grows).
  - apply add_span_exporter_grows.
  - apply (preserves_bind grows); [apply init_grows|].
    intros e. apply add_span_exporter_grows.
  - apply add_span_exporter_grows.
  - apply (preserves_bind grows); [|intros _; apply (preserves_ret grows)].
    apply (preserves_bind grows); [apply get_instance_grows|].
    intros _. apply (preserves_ret grows).
  - apply (preserves_bind grows); [apply (preserves_get grows)|].
    intros _. apply (preserves_ret grows).
  - apply mark_grows.
  - apply mark_grows.
  - apply set_attribute_grows.
  - apply close_grows.
  - apply close_grows.
Qed.

Lemma run_calls_grows cs : ∀ w, grows w (do_all cs w).
Proof.
  induction cs as [|c cs IH]; intros w; simpl; [reflexivity|].
  etrans; [apply (perform_grows c)|]. apply IH.
Qed.

(** C10: no call of the class takes a processor away: after any call, and
    after any program of calls, the processors registered before are still
    the first ones registered, in the same order; [add_span_exporter] adds
    one at the end, [close] leaves them as they are, and a second [close]
    calls [shutdown] on each of them again. *)
Theorem no_call_unregisters_a_processor :
  (∀ c w, registered w `prefix_of` registered (after (do c w)))
  ∧ (∀ cs w, registered w `prefix_of` registered (do_all cs w))
  ∧ (∀ exporter w,
       registered (after (add_span_exporter exporter w))
       = registered w ++ [mkBatchSpanProcessor (processors_created w) exporter])
  ∧ (∀ w, registered (after (close w)) = registered w)
  ∧ (∀ w, let calls := (λ p, EvShutdown (processor_id p)) <$> registered w in
          events (after (close (after (close w)))) = events w ++ calls ++ calls).
Proof.
  split_and!.
  - intros c w. apply (perform_grows c w).
  - intros cs w. apply (run_calls_grows cs w).
  - apply add_span_exporter_registered.
  - apply close_registered.
  - intros w. cbv zeta.
    by rewrite close_events, close_registered, close_events, <- app_assoc.
Qed.

End Registry_correct.

(** ** One instance, also under concurrency *)

Lemma lookup_goto (ls : list pc) t l0 l t' l' :
  ls !! t = Some l0 →
  <[t := l]> ls !! t' = Some l' →
  (t' = t ∧ l' = l) ∨ (t' ≠ t ∧ ls !! t' = Some l').
Proof.
  intros Ht. destruct (decide (t' = t)) as [->|Hne].
  - rewrite list_lookup_insert_eq by (by eapply lookup_lt_Some).
    intros [= <-]. by left.
  - rewrite list_lookup_insert_ne by done. by right.
Qed.

Lemma fresh_threads_inv threads : inv (fresh_threads threads).
Proof.
  split; simpl; try done.
  - intros t l [-> _]%lookup_replicate. done.
  - intros t l [-> _]%lookup_replicate. done.
  - intros t v H. by apply elem_of_nil in H.
Qed.

(** Two threads cannot both be inside the [with] block. *)
Lemma critical_exclusive s t t' l l' :
  inv s → pcs s !! t = Some l → in_critical l = true →
  pcs s !! t' = Some l' → in_critical l' = true → t' = t.
Proof.
  intros Hs Ht Hl Ht' Hl'.
  pose proof (inv_lock s Hs t l Ht Hl) as H1.
  pose proof (inv_lock s Hs t' l' Ht' Hl') as H2. congruence.
Qed.

(** The thread that moved is at its new statement, every other thread
    where it was. *)
Local Ltac split_thread Ht :=
  intros;
  repeat match goal with
  | H : <[_:=_]> _ !! _ = Some _ |- _ =>
      apply (lookup_goto _ _ _ _ _ _ Ht) in H as [[? ?]|[? ?]]
  end; simplify_eq; try done; eauto.

(** The lock is still held by a thread inside the block after thread [t]
    moved. *)
Local Ltac holder_after t Ht Hholder :=
  let h := fresh "h" in
  let Hh := fresh "Hh" in
  let l0 := fresh "l0" in
  let Hl0 := fresh "Hl0" in
  let Hc0 := fresh "Hc0" in
  intros h Hh; simpl in Hh;
  first
    [ injection Hh as <-; eexists; split;
      [apply list_lookup_insert_eq; eapply lookup_lt_Some; exact Ht|done]
    | destruct (Hholder _ Hh) as (l0 & Hl0 & Hc0);
      destruct (decide (h = t)) as [->|?];
      [ rewrite Ht in Hl0; injection Hl0 as <-;
        first [done
              | eexists; split;
                [apply list_lookup_insert_eq; eapply lookup_lt_Some; exact Ht|done]]
      | exists l0; split; [by rewrite list_lookup_insert_ne|done] ] ].

Lemma thread_step_inv t s : inv s → inv (thread_step t s).
Proof.
  intros Hs. unfold thread_step.
  destruct (pcs s !! t) as [l|] eqn:Ht; [|done].
  pose proof Hs as [Hc Hid Hlock Hholder Halloc Hpast Hret].
  destruct l;
    [|destruct (c_instance s) as [i|] eqn:Hi
     |destruct (c_lock s) as [holder|] eqn:Hl; [exact Hs|]
     |destruct (c_instance s) as [i|] eqn:Hi
     |pose proof (Halloc _ Ht) as Hnone; rewrite Hnone in Hc
     | | | | | ];
    (split; simpl; rewrite ?Hi; try done; try (by split_thread Ht);
     try (by holder_after t Ht Hholder)).
  - (* Acquire took the free lock: nobody else was inside *)
    intros t' l' H Hl'.
    apply (lookup_goto _ _ _ _ _ _ Ht) in H as [[-> _]|[Hne Hold]]; [done|].
    specialize (Hlock _ _ Hold Hl'). congruence.
  - (* Allocate: no other thread is about to allocate *)
    intros t' H.
    apply (lookup_goto _ _ _ _ _ _ Ht) in H as [[_ ?]|[Hne Hold]]; [done|].
    destruct Hne. eapply (critical_exclusive s); eauto.
  - (* Release: nobody else was inside *)
    intros t' l' H Hl'.
    apply (lookup_goto _ _ _ _ _ _ Ht) in H as [[-> ->]|[Hne Hold]]; [done|].
    destruct Hne. eapply (critical_exclusive s); eauto.
  - (* ReturnInstance: the reference returned is object 0 *)
    intros t' v [H|Heq%list_elem_of_singleton]%elem_of_app; [eauto|].
    injection Heq as -> ->.
    destruct (Hpast _ _ Ht eq_refl) as [i Hi]. rewrite Hi.
    by rewrite (Hid _ Hi).
Qed.

Lemma run_threads_inv schedule : ∀ s, inv s → inv (run_threads schedule s).
Proof.
  induction schedule as [|t schedule IH]; intros s Hs; simpl; [done|].
  by apply IH, thread_step_inv.
Qed.

Lemma run_threads_app a b s :
  run_threads (a ++ b) s = run_threads b (run_threads a s).
Proof. apply foldl_app. Qed.

(** A thread inside [get_instance] that does not wait for another thread's
    lock executes a statement and has fewer statements left; only
    [return cls._instance] returns, and it returns object 0. *)
Lemma thread_step_progress t s l :
  inv s → pcs s !! t = Some l → l ≠ Idle →
  c_lock s = None ∨ c_lock s = Some t →
  ∃ l', pcs (thread_step t s) !! t = Some l'
        ∧ rank l' < rank l
        ∧ (c_lock (thread_step t s) = None ∨ c_lock (thread_step t s) = Some t)
        ∧ (∀ t', t' ≠ t → pcs (thread_step t s) !! t' = pcs s !! t')
        ∧ c_returned (thread_step t s)
          = c_returned s ++ (if decide (l' = Idle) then [(t, Some 0)] else []).
Proof.
  intros Hs Ht Hl Hfree.
  pose proof Hs as [Hc Hid Hlock Hholder Halloc Hpast Hret].
  assert (t < length (pcs s)) as Hlt by (by eapply lookup_lt_Some).
  assert (c_lock s = Some t → in_critical l = true) as Hmine.
  { intros Hh. destruct (Hholder _ Hh) as (l0 & Hl0 & Hc0). congruence. }
  unfold thread_step. rewrite Ht.
  destruct l; try done;
    [destruct (c_instance s) as [i|] eqn:Hi
    |destruct (c_lock s) as [holder|] eqn:Hlk;
       [destruct Hfree as [?|Hh]; [done|]; by specialize (Hmine Hh)|]
    |destruct (c_instance s) as [i|] eqn:Hi
    | | | | | | ];
    eexists; (split_and!;
      [ by apply list_lookup_insert_eq
      | simpl; lia
      | simpl; auto
      | intros t' Hne; simpl; by rewrite list_lookup_insert_ne
      | simpl; rewrite ?app_nil_r; try done ]).
  destruct (Hpast _ _ Ht eq_refl) as [i Hi]. rewrite Hi.
  by rewrite (Hid _ Hi).
Qed.

(** A thread that does not wait for another thread's lock finishes its call
    when it runs alone, and leaves the lock free. *)
Lemma thread_completes_alone t : ∀ n s l,
  rank l ≤ n → inv s → pcs s !! t = Some l →
  c_lock s = None ∨ c_lock s = Some t →
  ∃ k, pcs (run_threads (replicate k t) s) !! t = Some Idle
       ∧ c_lock (run_threads (replicate k t) s) = None
       ∧ (∀ t', t' ≠ t → pcs (run_threads (replicate k t) s) !! t' = pcs s !! t')
       ∧ c_returned (run_threads (replicate k t) s)
         = c_returned s ++ (if decide (l = Idle) then [] else [(t, Some 0)]).
Proof.
  induction n as [|n IH]; intros s l Hrank Hs Ht Hfree.
  - destruct l; simpl in Hrank; try lia.
    exists 0. simpl. rewrite app_nil_r. split_and!; try done.
    destruct Hfree as [?|Hh]; [done|].
    destruct (inv_holder s Hs _ Hh) as (l0 & Hl0 & Hc0). by simplify_eq.
  - destruct (decide (l = Idle)) as [->|Hl].
    { exists 0. simpl. rewrite app_nil_r. split_and!; try done.
      destruct Hfree as [?|Hh]; [done|].
      destruct (inv_holder s Hs _ Hh) as (l0 & Hl0 & Hc0). by simplify_eq. }
    destruct (thread_step_progress t s l Hs Ht Hl Hfree)
      as (l' & Ht' & Hless & Hfree' & Hothers & Hreturned).
    destruct (IH (thread_step t s) l') as (k & Hidle & Hlock & Hothers' & Hreturned').
    { lia. } { by apply thread_step_inv. } { done. } { done. }
    exists (S k). simpl. split_and!; try done.
    + intros t' Hne. by rewrite Hothers', Hothers.
    + rewrite Hreturned', Hreturned, <- app_assoc. f_equal.
      destruct (decide (l' = Idle)); destruct (decide (l = Idle)); done.
Qed.

(** No call is stuck for good: from every state the threads can reach, each
    thread finishes its call under some schedule, returning object 0 if it
    was inside a call. *)
Lemma every_call_can_finish s t l :
  inv s → pcs s !! t = Some l →
  ∃ schedule others,
    pcs (run_threads schedule s) !! t = Some Idle
    ∧ c_returned (run_threads schedule s)
      = c_returned s ++ others ++ (if decide (l = Idle) then [] else [(t, Some 0)]).
Proof.
  intros Hs Ht.
  destruct (c_lock s) as [h|] eqn:Hlock; [destruct (decide (h = t)) as [->|Hne]|].
  - destruct (thread_completes_alone t (rank l) s l) as (k & Hidle & _ & _ & Hret);
      [done|done|done|by right|].
    exists (replicate k t), []. by rewrite Hret.
  - (* the holder leaves the block first *)
    destruct (inv_holder s Hs _ Hlock) as (lh & Hh & Hcrit).
    destruct (thread_completes_alone h (rank lh) s lh)
      as (k & _ & Hfree & Hothers & Hret); [done|done|done|by right|].
    set (s1 := run_threads (replicate k h) s) in *.
    destruct (thread_completes_alone t (rank l) s1 l)
      as (k' & Hidle & _ & _ & Hret'); [done| | |by left|].
    { by apply run_threads_inv. }
    { rewrite Hothers; [done|]. by intros ->. }
    exists (replicate k h ++ replicate k' t),
           (if decide (lh = Idle) then [] else [(h, Some 0)]).
    rewrite run_threads_app. fold s1. split; [done|].
    by rewrite Hret', Hret, <- app_assoc.
  - destruct (thread_completes_alone t (rank l) s l) as (k & Hidle & _ & _ & Hret);
      [done|done|done|by left|].
    exists (replicate k t), []. by rewrite Hret.
Qed.

Lemma fresh_process_at_most_one space : at_most_one (fresh_process space).
Proof. done. Qed.

Lemma get_instance_of_the_one w :
  at_most_one w → outcome (get_instance w) = Return 0.
Proof.
  unfold at_most_one, get_instance, outcome.
  destruct (_instance w) as [inst|]; simpl.
  - by intros [_ ->].
  - by intros ->.
Qed.

Section Singleton_correct.
Context (serialize : pyobj → result pyobj).
Context (json_dumps : pyobj → result string).
Context (str : pyobj → result string).

Abbreviation program := (run_calls serialize json_dumps str).

(** C5: a fresh process has no instance; the first [get_instance] allocates
    one, and a call that finds an instance returns it and allocates nothing;
    constructing via the class is [get_instance]; whatever calls a process
    has made, at most one object was ever allocated and [get_instance]
    returns that object, and the object a call returned is the one every
    later call returns; and when threads run [get_instance] interleaved in
    any order, statement by statement, with the check repeated under the
    lock, at most one object is allocated, every reference returned is that
    object, and every thread can finish its call, returning that object,
    under some continuation of the schedule. *)
Theorem at_most_one_instance_is_ever_created :
  (∀ space, _instance (fresh_process space) = None
            ∧ instances_created (fresh_process space) = 0)
  ∧ (∀ w, _instance w = None →
       instances_created (after (get_instance w)) = S (instances_created w)
       ∧ is_Some (_instance (after (get_instance w))))
  ∧ (∀ w inst, _instance w = Some inst →
       get_instance w = (Return (object_id inst), w))
  ∧ __new__ = get_instance
  ∧ (∀ space cs,
       let w := program cs (fresh_process space) in
       instances_created w ≤ 1 ∧ outcome (get_instance w) = Return 0)
  ∧ (∀ w cs,
       outcome (get_instance (program cs (after (get_instance w))))
       = outcome (get_instance w))
  ∧ (∀ threads schedule,
       let s := run_threads schedule (fresh_threads threads) in
       c_created s ≤ 1 ∧ ∀ t v, (t, v) ∈ c_returned s → v = Some 0)
  ∧ (∀ threads schedule t l,
       let s := run_threads schedule (fresh_threads threads) in
       pcs s !! t = Some l →
       ∃ more others,
         pcs (run_threads more s) !! t = Some Idle
         ∧ c_returned (run_threads more s)
           = c_returned s ++ others
               ++ (if decide (l = Idle) then [] else [(t, Some 0)])).
Proof.
  split_and!.
  - done.
  - intros w Hnone. unfold get_instance, after. rewrite Hnone. simpl.
    split; [done|by eexists].
  - apply get_instance_existing.
  - done.
  - intros space cs w.
    assert (at_most_one w) as Hone.
    { apply (run_calls_grows serialize json_dumps str cs (fresh_process space)).
      apply fresh_process_at_most_one. }
    split; [|by apply get_instance_of_the_one].
    unfold at_most_one in Hone. destruct (_instance w); [|lia].
    destruct Hone as [-> _]. lia.
  - intros w cs.
    destruct (get_instance_returns w) as (inst & Hrun & Hinst & _).
    destruct (run_calls_grows serialize json_dumps str cs (after (get_instance w)))
      as (_ & _ & Hid).
    specialize (Hid (ex_intro _ inst Hinst)). unfold identity in Hid.
    rewrite Hinst in Hid. simpl in Hid.
    destruct (_instance (program cs (after (get_instance w)))) as [inst'|] eqn:Hi';
      [|done].
    injection Hid as Hid.
    rewrite (get_instance_existing _ _ Hi'), Hrun. unfold outcome. simpl.
    by rewrite Hid.
  - intros threads schedule s.
    pose proof (run_threads_inv schedule _ (fresh_threads_inv threads)) as Hs.
    fold s in Hs. split; [|apply (inv_returned s Hs)].
    rewrite (inv_created s Hs). destruct (c_instance s); lia.
  - intros threads schedule t l s Ht.
    apply every_call_can_finish; [|done].
    apply run_threads_inv, fresh_threads_inv.
Qed.

End Singleton_correct.

(** * Examples *)

(** The constructor made the directory. *)
Example init_makes_the_directory :
  outcome (__init__ "logs/a/spans.jsonl" (fresh_process 100))
  = Return (mkFileSpanExporter "logs/a/spans.jsonl")
  ∧ events (after (__init__ "logs/a/spans.jsonl" (fresh_process 100)))
    = [EvMkdir "logs"; EvMkdir "logs/a"]
  ∧ outcome (__init__ "spans.jsonl" (fresh_process 100)) = Raise FileNotFoundError.
Proof. by vm_compute. Qed.

(** C1 as stated fails: with ten bytes left on the device the write of the
    first record cannot complete, and [export] raises instead of returning
    FAILURE. *)
Lemma export_raises_on_a_full_device :
  outcome (export sample_to_json spans_jsonl [load_span] (with_logs 10))
  = Raise NoSpaceLeftError
  ∧ outcome (export sample_to_json spans_jsonl [load_span] (with_logs 10))
    ≠ Return FAILURE.
Proof. split; [by vm_compute|]. by vm_compute. Qed.

(** Two spans exported to a file that did not exist yet. *)
Lemma export_two_spans_witness :
  open_error (file_name spans_jsonl) (with_logs 100) = None
  ∧ outcome (export sample_to_json spans_jsonl [load_span; run_span] (with_logs 100))
    = Return SUCCESS
  ∧ files (after (export sample_to_json spans_jsonl [load_span; run_span] (with_logs 100)))
      !! "logs/spans.jsonl"
    = Some (sample_to_json load_span +:+ newline
            +:+ sample_to_json run_span +:+ newline)
  ∧ handles (after (export sample_to_json spans_jsonl [load_span; run_span] (with_logs 100)))
    = ∅.
Proof.
  assert (open_error (file_name spans_jsonl) (with_logs 100) = None) as Hopen
    by (by vm_compute).
  assert (written_size (records sample_to_json [load_span; run_span])
          ≤ free_space (with_logs 100)) as Hfit
    by (vm_compute; lia).
  destruct (export_appends_one_line_per_span sample_to_json spans_jsonl
              [load_span; run_span] (with_logs 100) Hopen Hfit)
    as (Hout & Hfiles & _ & _ & _ & Hhandles & _).
  split_and!; [done|done| |].
  - rewrite Hfiles. by vm_compute.
  - rewrite Hhandles. by vm_compute.
Defined.

(** Two exporters registered in a fresh process. *)
Lemma add_two_exporters_witness :
  registry_ok (fresh_process 0)
  ∧ registered (after (add_span_exporter ConsoleSpanExporter (fresh_process 0)))
    = [mkBatchSpanProcessor 0 ConsoleSpanExporter]
  ∧ registered
      (after (add_span_exporter (FileExporter spans_jsonl)
                (after (add_span_exporter ConsoleSpanExporter (fresh_process 0)))))
    = [mkBatchSpanProcessor 0 ConsoleSpanExporter;
       mkBatchSpanProcessor 1 (FileExporter spans_jsonl)].
Proof.
  assert (registry_ok (fresh_process 0)) as Hok.
  { split; simpl.
    - by intros [? ?].
    - intros p Hp. by apply elem_of_nil in Hp. }
  destruct (add_span_exporter_registers_new_processor ConsoleSpanExporter
              (fresh_process 0) Hok)
    as (_ & _ & _ & Hreg & _ & _ & _ & Hnext).
  destruct (Hnext (FileExporter spans_jsonl)) as (_ & Hreg' & _).
  split_and!; [done| |].
  - rewrite Hreg. done.
  - rewrite Hreg'. done.
Defined.


(** One thread alone creates the instance and returns it; a second call
    returns it again without the lock. *)
Example one_thread_alone :
  c_returned (run_threads (replicate 13 0) (fresh_threads 1))
  = [(0, Some 0); (0, Some 0)]
  ∧ c_created (run_threads (replicate 13 0) (fresh_threads 1)) = 1.
Proof. by vm_compute. Qed.

(** Two threads pass the first check before either takes the lock; the
    second check keeps the later one from allocating. *)
Example two_threads_race :
  let schedule := [0; 1; 0; 1; 0; 1; 0; 0; 0; 0; 0; 0; 0; 1; 1; 1; 1; 1] in
  c_returned (run_threads schedule (fresh_threads 2)) = [(0, Some 0); (1, Some 0)]
  ∧ c_created (run_threads schedule (fresh_threads 2)) = 1
  ∧ c_lock (run_threads schedule (fresh_threads 2)) = None.
Proof. by vm_compute. Qed.

(** The example of the specification: [serialize] and [json.dumps] succeed
    on a [datetime]; the object the encoder rejects falls back to [str]. *)
Example coercion_examples :
  _generate_attribute_value sample_serialize sample_json_dumps sample_str
    (PTuple [PObj "datetime" 0; PObj "object" 1; PInt 3])
  = Return (PList [PStr (quote +:+ "2024-01-01T00:00:00Z" +:+ quote);
                   PStr "<object object>"; PInt 3]).
Proof. by vm_compute. Qed.

(** * Further properties *)

(** ** The values the coercion returns *)

Lemma attribute_shaped_items items :
  (fix all (l : list pyobj) : bool :=
     match l with
     | [] => true
     | x :: l' => attribute_shaped x && all l'
     end) items = forallb attribute_shaped items.
Proof. induction items as [|x l IH]; simpl; [done|]. by rewrite IH. Qed.

Lemma list_comprehension_first_failure {A B} (f : A → result B) items i x e :
  Forall (λ y, returns (f y)) (take i items) →
  items !! i = Some x → f x = Raise e →
  list_comprehension f items = Raise e.
Proof.
  revert i. induction items as [|y l IH]; intros i Hbefore Hi Hx; [done|].
  destruct i as [|i]; simpl in *.
  - injection Hi as ->. by rewrite Hx.
  - apply Forall_cons in Hbefore as [[v Hv] Hbefore]. rewrite Hv. simpl.
    by rewrite (IH i).
Qed.

Section Coercion_shape.
Context (serialize : pyobj → result pyobj).
Context (json_dumps : pyobj → result string).
Context (str : pyobj → result string).

Abbreviation coerce := (_generate_attribute_value serialize json_dumps str).

Lemma serialize_or_str_returns_str obj r :
  serialize_or_str serialize json_dumps str obj = Return r → ∃ s, r = PStr s.
Proof.
  unfold serialize_or_str, except_Exception.
  destruct (serialize obj) as [obj'|e1].
  - destruct (json_dumps obj') as [s|e2]; [intros [= <-]; by eexists|].
    destruct (is_Exception e2); [|done].
    destruct (str obj') as [s|e3]; simpl; [|done]. intros [= <-]. by eexists.
  - destruct (is_Exception e1); [|done].
    destruct (str obj) as [s|e3]; simpl; [|done]. intros [= <-]. by eexists.
Qed.

Lemma coerce_result obj : ∀ r,
  coerce obj = Return r → attribute_shaped r = true ∧ coerce r = Return r.
Proof.
  assert (∀ items, Forall (λ x, ∀ r, coerce x = Return r →
                      attribute_shaped r = true ∧ coerce r = Return r) items →
          ∀ out, list_comprehension coerce items = Return out →
            forallb attribute_shaped out = true
            ∧ list_comprehension coerce out = Return out) as Hitems.
  { intros items IH. induction IH as [|x l Hx _ IHl]; intros out; simpl.
    - by intros [= <-].
    - destruct (coerce x) as [v|e] eqn:Hv; simpl; [|done].
      destruct (list_comprehension coerce l) as [vs|e] eqn:Hvs; simpl; [|done].
      intros [= <-]. destruct (Hx v eq_refl) as [Hs Hfix].
      destruct (IHl vs eq_refl) as [Hss Hfixs]. simpl.
      by rewrite Hs, Hss, Hfix, Hfixs. }
  induction obj as [s|z|f|b|items IH|items IH|cls ident]
    using pyobj_items_ind; intros r.
  - by intros [= <-].
  - by intros [= <-].
  - by intros [= <-].
  - by intros [= <-].
  - rewrite coerce_list.
    destruct (list_comprehension coerce items) as [out|e] eqn:Hl; simpl; [|done].
    intros [= <-]. destruct (Hitems items IH out Hl) as [Hs Hfix].
    split; [simpl; by rewrite attribute_shaped_items|].
    by rewrite coerce_list, Hfix.
  - rewrite coerce_tuple.
    destruct (list_comprehension coerce items) as [out|e] eqn:Hl; simpl; [|done].
    intros [= <-]. destruct (Hitems items IH out Hl) as [Hs Hfix].
    split; [simpl; by rewrite attribute_shaped_items|].
    by rewrite coerce_list, Hfix.
  - rewrite coerce_obj. intros [s ->]%serialize_or_str_returns_str. done.
Qed.


(** X2: the exception that leaves the coercion of a list or tuple is the one
    of the first item whose coercion raises: with the items before it
    coerced, item [i] raising [e] makes the whole coercion raise [e]. *)
Theorem coercion_raises_what_the_first_failing_item_raises items i item e :
  Forall (λ x, returns (coerce x)) (take i items) →
  items !! i = Some item →
  coerce item = Raise e →
  coerce (PList items) = Raise e ∧ coerce (PTuple items) = Raise e.
Proof.
  intros Hbefore Hi He.
  rewrite coerce_list, coerce_tuple.
  by rewrite (list_comprehension_first_failure coerce items i item e).
Qed.

End Coercion_shape.

(** ** What a statement leaves alone *)

Global Instance keeps_preorder {A} (f : world → A) : PreOrder (keeps f).
Proof.
  split.
  - by intros w.
  - intros w1 w2 w3 H12 H23. unfold keeps in *. congruence.
Qed.

Lemma preserves_weaken (R R' : relation world) {A} (m : IO A) :
  (∀ w w', R w w' → R' w w') → preserves R m → preserves R' m.
Proof. intros Himp Hm w. apply Himp, Hm. Qed.

Lemma keeps_rest_registry w w' : keeps rest_of_world w w' → keeps registry_of w w'.
Proof. unfold keeps, rest_of_world, registry_of. intros [= -> -> -> -> _ _]. done. Qed.

Lemma keeps_rest_spans w w' : keeps rest_of_world w w' → keeps spans_of w w'.
Proof. unfold keeps, rest_of_world, spans_of. intros [= _ _ _ _ -> ->]. done. Qed.

Lemma os_mkdir_keeps name : preserves (keeps rest_of_world) (os_mkdir name).
Proof.
  intros w. unfold os_mkdir. by destruct (mkdir_error name w).
Qed.

Lemma makedirs_keeps depth : ∀ name,
  preserves (keeps rest_of_world) (makedirs depth name).
Proof.
  induction depth as [|depth IH]; intros name.
  - by intros w.
  - rewrite makedirs_unfold.
    destruct (os_path_split name) as [head tail].
    destruct (if bool_decide (tail = "") then os_path_split head else (head, tail))
      as [head' tail'].
    apply (preserves_bind (keeps rest_of_world));
      [apply (preserves_get (keeps rest_of_world))|]. intros found.
    apply (preserves_bind (keeps rest_of_world));
      [|intros _; apply os_mkdir_keeps].
    apply (preserves_if (keeps rest_of_world));
      [apply (preserves_pass_on (keeps rest_of_world)); apply IH|].
    apply (preserves_ret (keeps rest_of_world)).
Qed.

Lemma init_keeps path : preserves (keeps rest_of_world) (__init__ path).
Proof.
  unfold __init__.
  apply (preserves_bind (keeps rest_of_world));
    [apply (preserves_get (keeps rest_of_world))|]. intros found.
  apply (preserves_bind (keeps rest_of_world));
    [|intros _; apply (preserves_ret (keeps rest_of_world))].
  apply (preserves_if (keeps rest_of_world));
    [apply makedirs_keeps|apply (preserves_ret (keeps rest_of_world))].
Qed.

Lemma shutdown_keeps p : preserves (keeps rest_of_world) (shutdown p).
Proof. by intros w. Qed.

Lemma on_span_keeps ref f : preserves (keeps registry_of) (on_span ref f).
Proof. destruct ref; by intros w. Qed.

Lemma span_processors_of_keeps self :
  preserves (keeps rest_of_world) (_span_processors_of self).
Proof.
  intros w. unfold _span_processors_of.
  destruct (_instance w); [|done]. by case_bool_decide.
Qed.

Lemma get_instance_keeps_spans : preserves (keeps spans_of) get_instance.
Proof. intros w. unfold get_instance. by destruct (_instance w). Qed.

Lemma add_span_exporter_keeps_spans e :
  preserves (keeps spans_of) (add_span_exporter e).
Proof.
  unfold add_span_exporter.
  apply (preserves_bind (keeps spans_of)); [by intros w|]. intros p.
  apply (preserves_bind (keeps spans_of)); [apply get_instance_keeps_spans|].
  intros self.
  apply (preserves_bind (keeps spans_of)).
  - intros w. unfold _span_processors_append.
    destruct (_instance w); [|done]. by case_bool_decide.
  - intros _ w. unfold provider_add_span_processor.
    by destruct (tracer_provider w).
Qed.

Lemma close_keeps_spans : preserves (keeps spans_of) close.
Proof.
  unfold close.
  apply (preserves_bind (keeps spans_of)); [apply get_instance_keeps_spans|].
  intros self.
  apply (preserves_bind (keeps spans_of)).
  - eapply preserves_weaken; [apply keeps_rest_spans|].
    apply span_processors_of_keeps.
  - intros ps. apply (preserves_for_each (keeps spans_of)). intros p.
    eapply preserves_weaken; [apply keeps_rest_spans|]. apply shutdown_keeps.
Qed.

Global Instance carries_preorder (P : world → Prop) : PreOrder (carries P).
Proof. split; unfold carries; [by intros w|intros w1 w2 w3; auto]. Qed.

Lemma keeps_registry_in_step w w' : keeps registry_of w w' → carries in_step w w'.
Proof.
  unfold keeps, registry_of, carries, in_step. intros [= -> _ -> ->]. done.
Qed.

Lemma keeps_spans_shaped w w' :
  keeps spans_of w w' → carries attributes_shaped w w'.
Proof.
  unfold keeps, spans_of, carries, attributes_shaped. intros [= -> _]. done.
Qed.

Lemma get_instance_in_step : preserves (carries in_step) get_instance.
Proof.
  intros w. unfold carries, get_instance, in_step.
  destruct (_instance w) as [inst|] eqn:Hi; simpl; [by rewrite Hi|].
  intros [-> ->]. done.
Qed.

Lemma add_span_exporter_in_step e :
  preserves (carries in_step) (add_span_exporter e).
Proof.
  intros w. unfold carries, in_step, after,
    add_span_exporter, mbind, IO_bind, new_BatchSpanProcessor,
    get_instance, _span_processors_append, provider_add_span_processor.
  simpl. destruct (_instance w) as [inst|] eqn:Hi; simpl.
  - rewrite Hi. rewrite bool_decide_true by done. simpl.
    intros [-> Hids]. simpl. split; [done|].
    rewrite fmap_app, Hids. symmetry. apply (seq_S _ 0).
  - rewrite bool_decide_true by done. simpl. intros [Hp Hc].
    rewrite Hp, Hc. simpl. by rewrite Hc.
Qed.

Lemma in_step_registry_ok w : in_step w → registry_ok w.
Proof.
  unfold in_step, registry_ok, registered.
  destruct (_instance w) as [inst|].
  - intros [-> Hids]. split; [by eexists|].
    intros p Hp. apply (list_elem_of_fmap_2 processor_id) in Hp.
    rewrite Hids in Hp. apply elem_of_seq in Hp. lia.
  - intros _. split; [by intros [? ?]|].
    intros p Hp. by apply elem_of_nil in Hp.
Qed.

Lemma add_span_exporter_returns e w :
  in_step w → outcome (add_span_exporter e w) = Return ().
Proof.
  unfold in_step, outcome,
    add_span_exporter, mbind, IO_bind, new_BatchSpanProcessor,
    get_instance, _span_processors_append, provider_add_span_processor.
  simpl. destruct (_instance w) as [inst|] eqn:Hi; simpl.
  - rewrite Hi. rewrite bool_decide_true by done. simpl.
    intros [-> _]. done.
  - rewrite bool_decide_true by done. simpl. intros [-> _]. done.
Qed.

Section Invariants_of_the_class.
Context (serialize : pyobj → result pyobj).
Context (json_dumps : pyobj → result string).
Context (str : pyobj → result string).

Abbreviation coerce := (_generate_attribute_value serialize json_dumps str).
Abbreviation do := (perform serialize json_dumps str).
Abbreviation do_all := (run_calls serialize json_dumps str).

Lemma registry_call_in_step (m : IO unit) :
  preserves (keeps registry_of) m → preserves (carries in_step) m.
Proof. apply preserves_weaken, keeps_registry_in_step. Qed.

Lemma get_instance_then_in_step {A} (f : nat → IO A) :
  (∀ self, preserves (keeps registry_of) (f self)) →
  preserves (carries in_step) (get_instance ≫= f).
Proof.
  intros Hf. apply (preserves_bind (carries in_step)); [apply get_instance_in_step|].
  intros self. eapply preserves_weaken; [apply keeps_registry_in_step|]. apply Hf.
Qed.

Lemma perform_in_step c : preserves (carries in_step) (do c).
Proof.
  destruct c; simpl.
  - apply get_instance_then_in_step. intros _. by intros w.
  - apply get_instance_then_in_step. intros _. by intros w.
  - apply add_span_exporter_in_step.
  - apply (preserves_bind (carries in_step)).
    + eapply preserves_weaken; [|apply init_keeps].
      intros w w' H. by apply keeps_registry_in_step, keeps_rest_registry.
    + intros e. apply add_span_exporter_in_step.
  - apply add_span_exporter_in_step.
  - apply (preserves_bind (carries in_step));
      [|intros _; apply (preserves_ret (carries in_step))].
    apply get_instance_then_in_step. intros _. by intros w.
  - by intros w.
  - apply get_instance_then_in_step. intros _.
    apply (preserves_bind (keeps registry_of)); [by intros w|].
    intros span. apply on_span_keeps.
  - apply get_instance_then_in_step. intros _.
    apply (preserves_bind (keeps registry_of)); [by intros w|].
    intros span. apply on_span_keeps.
  - unfold set_attribute.
    apply (preserves_bind (carries in_step)); [apply get_instance_in_step|].
    intros _.
    apply (preserves_bind (carries in_step)); [by intros w|]. intros a.
    apply get_instance_then_in_step. intros _.
    apply (preserves_bind (keeps registry_of)); [by intros w|].
    intros span. apply on_span_keeps.
  - unfold close. apply get_instance_then_in_step. intros self.
    apply (preserves_bind (keeps registry_of)).
    + eapply preserves_weaken; [apply keeps_rest_registry|].
      apply span_processors_of_keeps.
    + intros ps. apply (preserves_for_each (keeps registry_of)). intros p.
      eapply preserves_weaken; [apply keeps_rest_registry|]. apply shutdown_keeps.
  - unfold __del__, close. apply get_instance_then_in_step. intros self.
    apply (preserves_bind (keeps registry_of)).
    + eapply preserves_weaken; [apply keeps_rest_registry|].
      apply span_processors_of_keeps.
    + intros ps. apply (preserves_for_each (keeps registry_of)). intros p.
      eapply preserves_weaken; [apply keeps_rest_registry|]. apply shutdown_keeps.
Qed.

Lemma run_calls_in_step cs : ∀ w, in_step w → in_step (do_all cs w).
Proof.
  induction cs as [|c cs IH]; intros w Hw; simpl; [done|].
  apply IH. by apply (perform_in_step c w).
Qed.

(** X3: whatever calls of the class a process has made, instance, provider
    and processors are in step: the tracer provider holds exactly the
    processors [close] will shut down, in the same order, the i-th of them is
    the i-th processor ever built, so no two are the same, and
    [add_span_exporter] returns without raising. *)
Theorem registry_and_provider_stay_in_step space cs :
  let w := do_all cs (fresh_process space) in
  in_step w
  ∧ (is_Some (_instance w) → tracer_provider w = Some (registered w))
  ∧ processor_id <$> registered w = seq 0 (processors_created w)
  ∧ NoDup (processor_id <$> registered w)
  ∧ (∀ exporter, outcome (add_span_exporter exporter w) = Return ()).
Proof.
  intros w.
  assert (in_step w) as Hw by (by apply run_calls_in_step).
  assert (processor_id <$> registered w = seq 0 (processors_created w)) as Hids.
  { unfold in_step, registered in *.
    destruct (_instance w); [by destruct Hw|]. destruct Hw as [_ ->]. done. }
  split_and!; try done.
  - unfold in_step, registered in *. intros [inst Hi]. rewrite Hi in *.
    by destruct Hw.
  - rewrite Hids. apply NoDup_seq.
  - intros e. by apply add_span_exporter_returns.
Qed.

End Invariants_of_the_class.

(** ** More on the file exporter *)

(** The writes of a batch that were logged are the first ones of the batch,
    all of them when the batch was written whole. *)
Lemma write_all_events fd datas : ∀ w,
  ∃ k, events (for_each datas (file_write fd) w).2
       = events w ++ (EvWrite fd <$> take k datas)
       ∧ ((for_each datas (file_write fd) w).1 = Return () → k = length datas).
Proof.
  induction datas as [|d ds IH]; intros w; simpl.
  - exists 0. by rewrite app_nil_r.
  - unfold mbind, IO_bind, file_write.
    destruct (handles w !! fd) as [path|]; simpl;
      [|exists 0; by rewrite app_nil_r].
    case_bool_decide; simpl; [|exists 0; by rewrite app_nil_r].
    set (w1 := log _ _). destruct (IH w1) as (k & Hev & Hk).
    fold (file_write fd) in *.
    exists (S k). destruct (for_each ds (file_write fd) w1) as [r w2].
    simpl in *. rewrite Hev. simpl. rewrite <- app_assoc. split; [done|].
    intros Hr. by rewrite Hk.
Qed.

Lemma entry_directory_iff path w :
  entry path w = Some Directory
  ↔ path ≠ "" ∧ (is_root path = true ∨ path ∈ dirs w).
Proof.
  unfold entry. case_bool_decide as Hp; [intuition congruence|].
  destruct (is_root path); simpl; [intuition congruence|].
  case_bool_decide as Hd; simpl; [intuition congruence|].
  case_bool_decide; intuition congruence.
Qed.

Lemma parent_error_none_iff path w :
  parent_error path w = None
  ↔ dirname path = "" ∨ entry (dirname path) w = Some Directory.
Proof.
  unfold parent_error. case_bool_decide as Hp; [intuition congruence|].
  destruct (entry (dirname path) w) as [[]|]; intuition congruence.
Qed.

Lemma open_error_none_iff path w :
  open_error path w = None
  ↔ path ≠ "" ∧ entry path w ≠ Some Directory ∧ basename path ≠ ""
    ∧ parent_error path w = None.
Proof.
  unfold open_error. case_bool_decide as Hp; [intuition congruence|].
  case_bool_decide as Hd; simpl; [intuition congruence|].
  case_bool_decide as Hb; simpl; intuition congruence.
Qed.

(** Whether a file can be opened for appending depends on the directories
    only. *)
Lemma open_error_dirs path w w' :
  dirs w' = dirs w → open_error path w = None → open_error path w' = None.
Proof.
  intros Hd. rewrite !open_error_none_iff, !parent_error_none_iff.
  rewrite !entry_directory_iff, Hd. done.
Qed.

Lemma written_text_app a b :
  written_text (a ++ b) = written_text a +:+ written_text b.
Proof.
  induction a as [|x a IH]; simpl; [done|].
  by rewrite IH, string_app_assoc.
Qed.

Lemma written_size_app a b :
  written_size (a ++ b) = written_size a + written_size b.
Proof. induction a as [|x a IH]; simpl; [done|]. rewrite IH. lia. Qed.

Section Export_more.
Context (to_json : Span → string).

(** X4: however [export] ends, also when [open] or a [write] raises, every
    handle it opened is closed again, no file has lost content, directories,
    registry and spans are untouched, and what it logged is nothing at all
    or an [open], the writes of the first records of the batch and a
    [close]. *)
Theorem export_closes_what_it_opened self spans w :
  let r := export to_json self spans w in
  let fd := fresh (dom (handles w)) in
  handles (after r) = handles w
  ∧ files_kept w (after r)
  ∧ dirs (after r) = dirs w
  ∧ rest_of_world (after r) = rest_of_world w
  ∧ (events (after r) = events w
     ∨ ∃ k, events (after r)
            = events w ++ [EvOpen (file_name self) fd]
                ++ (EvWrite fd <$> take k (records to_json spans))
                ++ [EvClose fd]).
Proof.
  intros r fd.
  destruct (export_frame to_json self spans w) as (Hh & Hk & Hd & Hrest).
  split_and!; try done.
  unfold r. rewrite export_unfold.
  destruct (open_error (file_name self) w); [by left|]. right. cbv zeta.
  destruct (write_all_events fd (records to_json spans) (opened (file_name self) w))
    as (k & Hev & _).
  fold fd. destruct (for_each _ _ _) as [[u|e] w']; simpl in *; exists k;
    rewrite Hev; simpl; by rewrite <- !app_assoc.
Qed.

(** X5: an empty batch costs no space: whenever the file can be opened,
    [export] of no spans returns SUCCESS, even on a full device; a file that
    was there keeps its content, and a missing file is there afterwards,
    empty. *)
Theorem export_of_no_spans self w :
  open_error (file_name self) w = None →
  let r := export to_json self [] w in
  outcome r = Return SUCCESS
  ∧ free_space (after r) = free_space w
  ∧ files (after r) !! file_name self
    = Some (default "" (files w !! file_name self))
  ∧ (∀ path, path ≠ file_name self → files (after r) !! path = files w !! path).
Proof.
  intros Hopen r.
  destruct (export_fits to_json self [] w Hopen) as (Hout & Hfiles & _ & _ & Hfree & _).
  { simpl. lia. }
  fold r in Hout, Hfiles, Hfree. split_and!; try done.
  - rewrite Hfree. simpl. lia.
  - rewrite Hfiles. simpl. by rewrite string_app_empty_r, lookup_insert_eq.
  - intros path Hne. rewrite Hfiles. by rewrite lookup_insert_ne.
Qed.

(** X6: batching does not show in the file: when the file can be opened and
    two batches fit on the device together, exporting one after the other
    returns SUCCESS twice and leaves the files and the free space that one
    [export] of the two batches together leaves. *)
Theorem export_twice_is_export_of_both self batch1 batch2 w :
  open_error (file_name self) w = None →
  written_size (records to_json (batch1 ++ batch2)) ≤ free_space w →
  let r1 := export to_json self batch1 w in
  let r2 := export to_json self batch2 (after r1) in
  let r := export to_json self (batch1 ++ batch2) w in
  outcome r1 = Return SUCCESS
  ∧ outcome r2 = Return SUCCESS
  ∧ outcome r = Return SUCCESS
  ∧ files (after r2) = files (after r)
  ∧ free_space (after r2) = free_space (after r).
Proof.
  intros Hopen Hfit r1 r2 r.
  unfold records in Hfit. rewrite fmap_app, written_size_app in Hfit.
  fold (records to_json batch1) (records to_json batch2) in Hfit.
  destruct (export_fits to_json self batch1 w Hopen)
    as (Hout1 & Hfiles1 & _ & _ & Hfree1 & Hdirs1 & _); [lia|].
  fold r1 in Hout1, Hfiles1, Hfree1, Hdirs1.
  destruct (export_fits to_json self batch2 (after r1))
    as (Hout2 & Hfiles2 & _ & _ & Hfree2 & _).
  { by apply (open_error_dirs _ w). }
  { rewrite Hfree1. lia. }
  fold r2 in Hout2, Hfiles2, Hfree2.
  destruct (export_fits to_json self (batch1 ++ batch2) w Hopen)
    as (Hout & Hfiles & _ & _ & Hfree & _).
  { unfold records. rewrite fmap_app, written_size_app. done. }
  fold r in Hout, Hfiles, Hfree.
  split_and!; try done.
  - rewrite Hfiles2, Hfiles1, Hfiles. rewrite lookup_insert_eq. simpl.
    rewrite insert_insert_eq. unfold records.
    by rewrite fmap_app, written_text_app, string_app_assoc.
  - rewrite Hfree2, Hfree1, Hfree. unfold records.
    rewrite fmap_app, written_size_app. lia.
Qed.

End Export_more.

(** ** Constructing, then exporting *)

Lemma basename_not_dirname path : basename path ≠ "" → dirname path ≠ path.
Proof.
  intros Hb%string_length_pos Heq.
  pose proof (os_path_split_length path (dirname path) (basename path)) as Hlen.
  unfold dirname, basename in *. destruct (os_path_split path) as [h t].
  simpl in *. specialize (Hlen eq_refl). rewrite Heq in Hlen. lia.
Qed.

Lemma path_exists_false_not_root path w :
  path ≠ "" → path_exists path w = false → is_root path = false.
Proof.
  intros Hne Hex. destruct (is_root path) eqn:Hroot; [|done].
  unfold path_exists, entry in Hex.
  rewrite (bool_decide_false (path = "")) in Hex by done.
  rewrite Hroot in Hex. simpl in Hex. done.
Qed.

(** The constructor makes a missing directory whose parent is there. *)
Lemma init_makes_directory path w :
  dirname path ≠ "" → path_exists (dirname path) w = false →
  parent_error (dirname path) w = None →
  __init__ path w
  = (Return (mkFileSpanExporter path),
     log (EvMkdir (dirname path)) (set_dirs (λ d, {[dirname path]} ∪ d) w)).
Proof.
  intros Hne Hex Hparent. rewrite init_unfold, Hex.
  rewrite os_makedirs_one_level; try done.
  apply basename_of_dirname; [done|]. by eapply path_exists_false_not_root.
Qed.

Section Construct_then_export.
Context (to_json : Span → string).

(** X7: an exporter constructed for a file in a missing directory whose
    parent is there can export at once: the constructor makes the directory,
    and an [export] whose batch fits on the device returns SUCCESS and leaves
    the batch in the file; the log shows the [mkdir], the [open], one write
    per span and the [close]. *)
Theorem export_after_construction path spans w :
  dirname path ≠ "" →
  path_exists (dirname path) w = false →
  parent_error (dirname path) w = None →
  basename path ≠ "" →
  entry path w ≠ Some Directory →
  written_size (records to_json spans) ≤ free_space w →
  let w1 := after (__init__ path w) in
  let r := export to_json (mkFileSpanExporter path) spans w1 in
  let fd := fresh (dom (handles w)) in
  outcome (__init__ path w) = Return (mkFileSpanExporter path)
  ∧ outcome r = Return SUCCESS
  ∧ files (after r) !! path
    = Some (default "" (files w !! path) +:+ written_text (records to_json spans))
  ∧ events (after r)
    = events w ++ [EvMkdir (dirname path); EvOpen path fd]
        ++ (EvWrite fd <$> records to_json spans) ++ [EvClose fd].
Proof.
  intros Hne Hex Hparent Hbase Hnodir Hfit w1 r fd.
  assert (__init__ path w
          = (Return (mkFileSpanExporter path),
             log (EvMkdir (dirname path))
               (set_dirs (λ d, {[dirname path]} ∪ d) w))) as Hinit
    by (by apply init_makes_directory).
  assert (path ≠ "") as Hpath by (by intros ->).
  assert (open_error path w1 = None) as Hopen.
  { unfold w1. rewrite Hinit. apply open_error_none_iff. split_and!; try done.
    - rewrite entry_directory_iff. rewrite entry_directory_iff in Hnodir.
      simpl. intros [_ [Hroot|Hin]]; [by apply Hnodir; auto|].
      apply elem_of_union in Hin as [Hin%elem_of_singleton|Hin].
      + by apply (basename_not_dirname path).
      + apply Hnodir; auto.
    - apply parent_error_none_iff. right. apply entry_directory_iff.
      split; [done|]. right. simpl. set_solver. }
  destruct (export_fits to_json (mkFileSpanExporter path) spans w1 Hopen)
    as (Hout & Hfiles & Hev & _).
  { unfold w1. by rewrite Hinit. }
  fold r in Hout, Hfiles, Hev.
  split_and!.
  - by rewrite Hinit.
  - done.
  - rewrite Hfiles. simpl. rewrite lookup_insert_eq. unfold w1.
    by rewrite Hinit.
  - rewrite Hev. unfold w1. rewrite Hinit. simpl. by rewrite <- !app_assoc.
Qed.

(** X8: the constructor asks whether the directory part exists, not whether
    it is a directory: when it names a regular file the construction returns
    and changes nothing, and every [export] of that exporter raises, whatever
    the batch. *)
Theorem construction_accepts_a_regular_file_as_directory path w :
  entry (dirname path) w = Some RegularFile →
  __init__ path w = (Return (mkFileSpanExporter path), w)
  ∧ ∀ spans,
      outcome (export to_json (mkFileSpanExporter path) spans w)
      = Raise NotADirectoryError
      ∨ outcome (export to_json (mkFileSpanExporter path) spans w)
        = Raise IsADirectoryError.
Proof.
  intros Hfile. split.
  - rewrite init_unfold. unfold path_exists. rewrite Hfile.
    by rewrite bool_decide_true by (by eexists).
  - intros spans.
    assert (dirname path ≠ "") as Hne by (by intros Heq; rewrite Heq in Hfile).
    assert (path ≠ "") as Hpath by (by intros ->).
    assert (open_error path w = Some NotADirectoryError
            ∨ open_error path w = Some IsADirectoryError) as [Herr|Herr].
    { unfold open_error. rewrite (bool_decide_false (path = "")) by done.
      destruct (bool_decide (entry path w = Some Directory)
                || bool_decide (basename path = "")); [by right|].
      left. unfold parent_error.
      rewrite (bool_decide_false (dirname path = "")) by done.
      by rewrite Hfile. }
    + left.
      by rewrite (export_open_fails to_json (mkFileSpanExporter path) spans w _ Herr).
    + right.
      by rewrite (export_open_fails to_json (mkFileSpanExporter path) spans w _ Herr).
Qed.

End Construct_then_export.

(** ** More on the registry *)

Lemma makedirs_preserves (R : relation world) `{!PreOrder R} :
  (∀ name, preserves R (os_mkdir name)) →
  ∀ depth name, preserves R (makedirs depth name).
Proof.
  intros Hmkdir. induction depth as [|depth IH]; intros name.
  - intros w. simpl. reflexivity.
  - rewrite makedirs_unfold.
    destruct (os_path_split name) as [head tail].
    destruct (if bool_decide (tail = "") then os_path_split head else (head, tail))
      as [head' tail'].
    apply (preserves_bind R); [apply (preserves_get R)|]. intros found.
    apply (preserves_bind R); [|intros _; apply Hmkdir].
    apply (preserves_if R); [apply (preserves_pass_on R); apply IH|].
    apply (preserves_ret R).
Qed.

Lemma init_keeps_storage path : preserves (keeps storage_of) (__init__ path).
Proof.
  unfold __init__.
  apply (preserves_bind (keeps storage_of)); [by intros w|]. intros found.
  apply (preserves_bind (keeps storage_of)); [|by intros _ w].
  apply (preserves_if (keeps storage_of)); [|by intros w].
  apply (makedirs_preserves (keeps storage_of)).
  intros name w. unfold os_mkdir. by destruct (mkdir_error name w).
Qed.

Lemma get_instance_keeps_storage : preserves (keeps storage_of) get_instance.
Proof. intros w. unfold get_instance. by destruct (_instance w). Qed.

Lemma add_span_exporter_keeps_storage e :
  preserves (keeps storage_of) (add_span_exporter e).
Proof.
  unfold add_span_exporter.
  apply (preserves_bind (keeps storage_of)); [by intros w|]. intros p.
  apply (preserves_bind (keeps storage_of)); [apply get_instance_keeps_storage|].
  intros self.
  apply (preserves_bind (keeps storage_of)).
  - intros w. unfold _span_processors_append.
    destruct (_instance w); [|done]. by case_bool_decide.
  - intros _ w. unfold provider_add_span_processor.
    by destruct (tracer_provider w).
Qed.

Lemma init_returns_the_exporter path w self w' :
  __init__ path w = (Return self, w') → self = mkFileSpanExporter path.
Proof.
  rewrite init_unfold. destruct (path_exists (dirname path) w).
  - by intros [= <- _].
  - destruct (os_makedirs (dirname path) w) as [[u|e] w1]; [|done].
    by intros [= <- _].
Qed.

(** X9: [add_file_span_exporter] registers only when the exporter could be
    constructed: if the construction raises, the same exception leaves the
    call and registry and spans are as before; if it returns, the processor
    added at the end wraps the file exporter of that file name; either way
    no file is opened, created or written: the span file is not touched
    before the first [export]. *)
Theorem add_file_span_exporter_registers_after_construction path w :
  let r := add_file_span_exporter path w in
  (∀ e, outcome (__init__ path w) = Raise e →
     outcome r = Raise e ∧ rest_of_world (after r) = rest_of_world w)
  ∧ (returns (outcome (__init__ path w)) →
     registered (after r)
     = registered w
       ++ [mkBatchSpanProcessor (processors_created w)
             (FileExporter (mkFileSpanExporter path))])
  ∧ storage_of (after r) = storage_of w.
Proof.
  intros r. unfold r, add_file_span_exporter, mbind, IO_bind.
  pose proof (init_keeps path w) as Hrest.
  pose proof (init_keeps_storage path w) as Hstorage.
  pose proof (init_returns_the_exporter path w) as Hself.
  unfold keeps, after in Hrest, Hstorage.
  destruct (__init__ path w) as [[self|e] w1]; simpl in *.
  - rewrite (Hself self w1 eq_refl). split_and!.
    + done.
    + intros _. rewrite add_span_exporter_registered.
      unfold rest_of_world, registered in *.
      by injection Hrest as -> _ _ -> _ _.
    + etrans; [apply (add_span_exporter_keeps_storage _ w1)|done].
  - split_and!; try done.
    + by intros e' [= <-].
    + by intros [? ?].
Qed.

Lemma grows_instance_stays w w' :
  grows w w' → is_Some (_instance w) → is_Some (_instance w').
Proof.
  intros (_ & _ & Hid) Hsome. specialize (Hid Hsome).
  unfold identity in Hid. destruct Hsome as [inst Hinst]. rewrite Hinst in Hid.
  destruct (_instance w'); [by eexists|done].
Qed.

Lemma get_instance_creates w : is_Some (_instance (after (get_instance w))).
Proof.
  destruct (get_instance_returns w) as (inst & _ & Hinst & _). by eexists.
Qed.

Lemma get_instance_then_creates {A} (f : nat → IO A) w :
  (∀ self, preserves grows (f self)) →
  is_Some (_instance (after ((get_instance ≫= f) w))).
Proof.
  intros Hf. unfold mbind, IO_bind.
  pose proof (get_instance_creates w) as Hsome.
  destruct (get_instance w) as [[self|e] w1]; [|done].
  eapply grows_instance_stays; [apply (Hf self w1)|done].
Qed.

Lemma add_span_exporter_creates e w :
  is_Some (_instance (after (add_span_exporter e w))).
Proof.
  unfold add_span_exporter, mbind at 1, IO_bind at 1, new_BatchSpanProcessor.
  apply (get_instance_then_creates _ (set_processors_created S w)).
  intros self. apply (preserves_bind grows); [apply append_grows|].
  intros _. apply provider_add_grows.
Qed.

Section Registry_more.
Context (serialize : pyobj → result pyobj).
Context (json_dumps : pyobj → result string).
Context (str : pyobj → result string).

Abbreviation coerce := (_generate_attribute_value serialize json_dumps str).
Abbreviation do := (perform serialize json_dumps str).

(** X10: the instance is created by the first use of any method but one:
    after every call of the class other than [get_current_span] there is an
    instance, provided that for [add_file_span_exporter] the exporter could
    be constructed; [get_current_span] alone leaves the world as it is. *)
Theorem every_method_but_one_creates_the_instance c w :
  (c = Call_get_current_span → after (do c w) = w)
  ∧ (c ≠ Call_get_current_span →
     (∀ path, c = Call_add_file_span_exporter path →
        returns (outcome (__init__ path w))) →
     is_Some (_instance (after (do c w)))).
Proof.
  split; [by intros ->|].
  intros Hc Hinit.
  destruct c as [| | |path|exporter|name attributes| | | |key value| |];
    simpl; try done.
  - apply get_instance_then_creates. intros _. apply (preserves_ret grows).
  - apply get_instance_then_creates. intros _. apply (preserves_ret grows).
  - apply add_span_exporter_creates.
  - destruct (Hinit path eq_refl) as [self Hself].
    unfold add_file_span_exporter, mbind, IO_bind. unfold outcome in Hself.
    destruct (__init__ path w) as [r w1]. simpl in Hself. subst r.
    apply add_span_exporter_creates.
  - apply add_span_exporter_creates.
  - unfold start_as_current_span.
    pose proof (get_instance_then_creates
                  (λ _ : nat, mret (mkScope name attributes)) w) as Hsome.
    unfold mbind, IO_bind in *.
    destruct (get_instance w) as [[self|e] w1]; simpl in *;
      apply Hsome; intros _; apply (preserves_ret grows).
  - apply get_instance_then_creates. intros _.
    apply (preserves_bind grows); [apply (preserves_get grows)|].
    intros span. apply on_span_grows.
  - apply get_instance_then_creates. intros _.
    apply (preserves_bind grows); [apply (preserves_get grows)|].
    intros span. apply on_span_grows.
  - apply get_instance_then_creates. intros _.
    apply (preserves_bind grows); [apply (preserves_lift grows)|]. intros a.
    apply (preserves_bind grows); [apply get_instance_grows|]. intros _.
    apply (preserves_bind grows); [apply (preserves_get grows)|].
    intros span. apply on_span_grows.
  - apply get_instance_then_creates. intros self.
    apply (preserves_bind grows); [apply span_processors_of_grows|]. intros ps.
    apply (preserves_for_each grows). apply shutdown_grows.
  - apply get_instance_then_creates. intros self.
    apply (preserves_bind grows); [apply span_processors_of_grows|]. intros ps.
    apply (preserves_for_each grows). apply shutdown_grows.
Qed.

End Registry_more.

(** X11: [close] (and with it [__del__]) in a process without an instance
    shuts nothing down, but it creates the instance, without processors, and
    sets the tracer provider if none was set. *)
Theorem close_without_instance_creates_it w :
  _instance w = None →
  close w = __del__ w
  ∧ outcome (close w) = Return ()
  ∧ events (after (close w)) = events w
  ∧ _instance (after (close w))
    = Some (mkOpenTelemetryTracer (instances_created w) __name__ [])
  ∧ instances_created (after (close w)) = S (instances_created w)
  ∧ tracer_provider (after (close w)) = Some (default [] (tracer_provider w)).
Proof.
  intros Hnone. split; [done|]. rewrite close_unfold.
  unfold registered, get_instance, after, outcome. rewrite Hnone. simpl.
  split_and!; try done. by destruct (tracer_provider w).
Qed.

(** ** Status and attributes of the current span *)

Lemma mark_unfold code w :
  (get_instance;; span ← get_current_span; on_span span (Span_set_status code)) w
  = (Return (),
     match current_span w with
     | Some i => set_spans (alter (Span_set_status code) i) (after (get_instance w))
     | None => after (get_instance w)
     end).
Proof.
  unfold mbind, IO_bind.
  destruct (get_instance_returns w) as (inst & Hrun & _ & _ & _ & _ & _ & Hcur).
  rewrite Hrun. unfold get_current_span, trace_get_current_span, get.
  rewrite Hcur. by destruct (current_span w).
Qed.

Lemma mark_spans code w :
  spans (after ((get_instance;; span ← get_current_span;
                 on_span span (Span_set_status code)) w))
  = match current_span w with
    | Some i => alter (Span_set_status code) i (spans w)
    | None => spans w
    end.
Proof.
  rewrite mark_unfold. unfold after. simpl.
  destruct (get_instance_returns w) as (inst & _ & _ & _ & _ & _ & Hspans & _).
  unfold after in Hspans. destruct (current_span w); simpl; by rewrite Hspans.
Qed.

(** X12: [mark_succeeded] and [mark_failed] return without raising and
    change one thing: a current span that has not ended gets the status OK,
    respectively ERROR, and keeps its name, times and attributes; every
    other span, and the current span if it has ended, is as before, and
    without a current span no span changes. *)
Theorem mark_sets_the_status_of_the_current_span_only w :
  outcome (mark_succeeded w) = Return ()
  ∧ outcome (mark_failed w) = Return ()
  ∧ (∀ i s, current_span w = Some i → spans w !! i = Some s →
       match end_time s with
       | None =>
           spans (after (mark_succeeded w)) !! i
           = Some (mkSpan (span_name s) (start_time s) None OK (attributes s))
           ∧ spans (after (mark_failed w)) !! i
             = Some (mkSpan (span_name s) (start_time s) None ERROR (attributes s))
       | Some _ =>
           spans (after (mark_succeeded w)) !! i = Some s
           ∧ spans (after (mark_failed w)) !! i = Some s
       end)
  ∧ (∀ j, current_span w ≠ Some j →
       spans (after (mark_succeeded w)) !! j = spans w !! j
       ∧ spans (after (mark_failed w)) !! j = spans w !! j).
Proof.
  unfold mark_succeeded, mark_failed. split_and!.
  - by rewrite mark_unfold.
  - by rewrite mark_unfold.
  - intros i s Hcur Hs. rewrite !mark_spans, Hcur, !lookup_alter_eq, Hs.
    unfold Span_set_status. simpl. by destruct (end_time s) eqn:Hend.
  - intros j Hj. rewrite !mark_spans.
    destruct (current_span w) as [i|]; [|done].
    rewrite !lookup_alter_ne by congruence. done.
Qed.

Lemma alter_keeps_shaped (f : Span → Span) i w w' :
  spans w' = alter f i (spans w) →
  (∀ s key v, attributes (f s) !! key = Some v →
     attributes s !! key = Some v ∨ attribute_shaped v = true) →
  attributes_shaped w → attributes_shaped w'.
Proof.
  intros Hspans Hf Hw j s key v Hs Hv. rewrite Hspans in Hs.
  destruct (decide (i = j)) as [->|Hne].
  - rewrite lookup_alter_eq in Hs.
    destruct (spans w !! j) as [s0|] eqn:Hs0; [|done].
    injection Hs as <-. destruct (Hf _ _ _ Hv) as [Hold|Hnew]; [|done].
    by eapply Hw.
  - rewrite lookup_alter_ne in Hs by done. by eapply Hw.
Qed.

Section Attributes_shaped.
Context (serialize : pyobj → result pyobj).
Context (json_dumps : pyobj → result string).
Context (str : pyobj → result string).

Abbreviation coerce := (_generate_attribute_value serialize json_dumps str).
Abbreviation do := (perform serialize json_dumps str).
Abbreviation do_all := (run_calls serialize json_dumps str).

Lemma set_attribute_shaped key value :
  preserves (carries attributes_shaped)
    (set_attribute serialize json_dumps str key value).
Proof.
  intros w Hw. rewrite set_attribute_unfold. cbv zeta.
  pose proof (get_instance_keeps_spans w) as Hspans.
  unfold keeps, spans_of in Hspans. injection Hspans as Hspans Hcur.
  destruct (coerce value) as [a|e] eqn:Ha; simpl.
  - destruct (coerce_result serialize json_dumps str value a Ha) as [Hshaped _].
    destruct (current_span w) as [i|].
    + eapply (alter_keeps_shaped (Span_set_attribute key a) i w); [|
        |done].
      * simpl. by rewrite Hspans.
      * intros s k v. unfold Span_set_attribute.
        destruct (end_time s); simpl; [by left|].
        destruct (decide (key = k)) as [->|Hne].
        -- rewrite lookup_insert_eq. intros [= <-]. by right.
        -- rewrite lookup_insert_ne by done. by left.
    + intros j s k v. rewrite Hspans. apply Hw.
  - intros j s k v. rewrite Hspans. apply Hw.
Qed.

Lemma mark_shaped code :
  preserves (carries attributes_shaped)
    (get_instance;; span ← get_current_span; on_span span (Span_set_status code)).
Proof.
  intros w Hw. pose proof (mark_spans code w) as Hspans.
  destruct (current_span w) as [i|].
  - eapply (alter_keeps_shaped (Span_set_status code) i w); [exact Hspans| |done].
    intros s k v. unfold Span_set_status. destruct (end_time s); by left.
  - intros j s k v. rewrite Hspans. apply Hw.
Qed.

Lemma spans_call_shaped {A} (m : IO A) :
  preserves (keeps spans_of) m → preserves (carries attributes_shaped) m.
Proof. apply preserves_weaken, keeps_spans_shaped. Qed.

Lemma perform_shaped c : preserves (carries attributes_shaped) (do c).
Proof.
  destruct c as [| | |path|exporter|name attributes| | | |key value| |]; simpl.
  - apply spans_call_shaped.
    apply (preserves_bind (keeps spans_of)); [apply get_instance_keeps_spans|].
    by intros _ w.
  - apply spans_call_shaped.
    apply (preserves_bind (keeps spans_of)); [apply get_instance_keeps_spans|].
    by intros _ w.
  - apply spans_call_shaped, add_span_exporter_keeps_spans.
  - apply spans_call_shaped.
    apply (preserves_bind (keeps spans_of)).
    + eapply preserves_weaken; [apply keeps_rest_spans|]. apply init_keeps.
    + intros e. apply add_span_exporter_keeps_spans.
  - apply spans_call_shaped, add_span_exporter_keeps_spans.
  - apply spans_call_shaped.
    apply (preserves_bind (keeps spans_of)); [|by intros _ w].
    apply (preserves_bind (keeps spans_of)); [apply get_instance_keeps_spans|].
    by intros _ w.
  - by intros w.
  - apply mark_shaped.
  - apply mark_shaped.
  - apply set_attribute_shaped.
  - apply spans_call_shaped, close_keeps_spans.
  - apply spans_call_shaped, close_keeps_spans.
Qed.

(** X13: the class only ever stores attribute values of the types the
    comment in the source names: if every attribute of every span is a
    [str], [int], [float], [bool] or list of such values, this is still so
    after any program of calls, and the value [set_attribute] leaves under
    its key on a current span that has not ended is such a value. *)
Theorem calls_keep_attributes_shaped cs w :
  attributes_shaped w →
  attributes_shaped (do_all cs w)
  ∧ ∀ key value i s,
      current_span w = Some i → spans w !! i = Some s → end_time s = None →
      outcome (set_attribute serialize json_dumps str key value w) = Return () →
      ∃ s' v, spans (after (set_attribute serialize json_dumps str key value w)) !! i
              = Some s'
              ∧ attributes s' !! key = Some v
              ∧ coerce value = Return v
              ∧ attribute_shaped v = true.
Proof.
  intros Hw. split.
  - revert w Hw. induction cs as [|c cs IH]; intros w Hw; simpl; [done|].
    apply IH. by apply (perform_shaped c w).
  - intros key value i s Hcur Hs Hend. rewrite set_attribute_unfold. cbv zeta.
    pose proof (get_instance_keeps_spans w) as Hspans.
    unfold keeps, spans_of in Hspans. injection Hspans as Hspans _.
    destruct (coerce value) as [a|e] eqn:Ha; [|done]. intros _.
    rewrite Hcur. unfold after. simpl. unfold after in Hspans. rewrite Hspans.
    exists (Span_set_attribute key a s), a. split_and!.
    + by rewrite lookup_alter_eq, Hs.
    + unfold Span_set_attribute. rewrite Hend. simpl. by rewrite lookup_insert_eq.
    + done.
    + by destruct (coerce_result serialize json_dumps str value a Ha).
Qed.

End Attributes_shaped.

(** ** Initialisation under concurrency *)

Lemma thread_stays (ls : list pc) t t0 l l0 :
  t0 ≠ t → ls !! t0 = Some l0 → <[t := l]> ls !! t0 = Some l0.
Proof. intros Hne H. by rewrite list_lookup_insert_ne. Qed.

Lemma thread_moved (ls : list pc) t l l0 :
  ls !! t = Some l0 → <[t := l]> ls !! t = Some l.
Proof. intros H. apply list_lookup_insert_eq. by eapply lookup_lt_Some. Qed.

Lemma fresh_threads_init_inv threads : init_inv (fresh_threads threads).
Proof. by intros [? ?]. Qed.

Local Ltac witness_thread :=
  solve [ split_and?; try done; eexists;
          first [ eapply thread_moved; eassumption
                | eapply thread_stays; eassumption ] ].

Local Ltac pick_stage :=
  first [ left; witness_thread
        | right; left; witness_thread
        | right; right; left; witness_thread
        | right; right; right; by split_and? ].

Lemma thread_step_init_inv t s : init_inv s → init_inv (thread_step t s).
Proof.
  intros Hs. unfold thread_step.
  destruct (pcs s !! t) as [l|] eqn:Ht; [|done].
  unfold init_inv in *.
  destruct l;
    [|destruct (c_instance s) as [i|] eqn:Hi
     |destruct (c_lock s) as [holder|] eqn:Hl; [exact Hs|]
     |destruct (c_instance s) as [i|] eqn:Hi
     | | | | | | ]; simpl; intros Hsome.
  all: try rewrite Hi in Hsome.
  all: try (by destruct Hsome).
  all: try (specialize (Hs Hsome);
    destruct Hs as [[t0 H0]|[(Hp & t0 & H0)|[(Hp & Htr & t0 & H0)|(Hp & Htr & Hpr)]]];
    try (destruct (decide (t0 = t)) as [->|Hne]; [simplify_eq|]);
    pick_stage).
  left. eexists. eapply thread_moved. eassumption.
Qed.

Lemma run_threads_init_inv schedule : ∀ s, init_inv s → init_inv (run_threads schedule s).
Proof.
  induction schedule as [|t schedule IH]; intros s Hs; simpl; [done|].
  by apply IH, thread_step_init_inv.
Qed.

(** X14: whenever the lock is free and there is an instance, the instance is
    complete: the provider is set and the object has its [_tracer] and its
    [_span_processors]; so the thread that allocated the instance does not
    return it before it is initialised. *)
Theorem instance_is_complete_when_the_lock_is_free threads schedule :
  let s := run_threads schedule (fresh_threads threads) in
  c_lock s = None → is_Some (c_instance s) →
  c_provider_set s = true ∧ c_has_tracer s = true ∧ c_has_processors s = true.
Proof.
  intros s Hfree Hsome.
  pose proof (run_threads_inv schedule _ (fresh_threads_inv threads)) as Hs.
  pose proof (run_threads_init_inv schedule _ (fresh_threads_init_inv threads))
    as Hinit.
  fold s in Hs, Hinit.
  destruct (Hinit Hsome)
    as [[t H0]|[(Hp & t & H0)|[(Hp & Htr & t & H0)|(Hp & Htr & Hpr)]]];
    [| | |done];
    pose proof (inv_lock s Hs t _ H0 eq_refl) as Hheld; congruence.
Qed.

(** X15: the first check is made without the lock, so with two threads or
    more a call can return the instance while the object has neither
    [_tracer] nor [_span_processors] yet: some schedule lets thread 1 return
    object 0 between its allocation and its initialisation by thread 0. *)
Theorem instance_can_be_returned_before_it_is_complete threads :
  2 ≤ threads →
  ∃ schedule,
    let s := run_threads schedule (fresh_threads threads) in
    (1, Some 0) ∈ c_returned s
    ∧ c_has_tracer s = false ∧ c_has_processors s = false
    ∧ c_lock s = Some 0.
Proof.
  intros Hthreads. exists [0; 0; 0; 0; 0; 1; 1; 1].
  destruct threads as [|[|n]]; [lia|lia|].
  cbv zeta. vm_compute. split_and!; try done.
  apply list_elem_of_here.
Qed.


(** ** Constructing again, and the calls that register nothing *)

Lemma init_returns_exists path w self w' :
  __init__ path w = (Return self, w') → path_exists (dirname path) w' = true.
Proof.
  rewrite init_unfold. destruct (path_exists (dirname path) w) eqn:Hex.
  - by intros [= _ <-].
  - destruct (os_makedirs (dirname path) w) as [[u|e] w1] eqn:Hmk; [|done].
    intros [= _ <-].
    assert (dirname path ≠ "") as Hne.
    { intros Hd. by rewrite Hd, os_makedirs_empty in Hmk. }
    apply makedirs_returns in Hmk.
    unfold path_exists, entry.
    rewrite (bool_decide_false (dirname path = "")) by done.
    rewrite (bool_decide_true (dirname path ∈ dirs w1)) by done.
    rewrite orb_true_r. apply bool_decide_true. by eexists.
Qed.

(** X16: constructing the exporter of a file a second time changes nothing:
    after a construction that returned, a further construction for the same
    file name returns the same exporter and leaves the world as it is, so no
    directory is made twice. *)
Theorem constructing_again_changes_nothing path w self w' :
  __init__ path w = (Return self, w') →
  __init__ path w' = (Return self, w').
Proof.
  intros Hinit. rewrite (init_returns_the_exporter _ _ _ _ Hinit).
  rewrite init_unfold. by rewrite (init_returns_exists _ _ _ _ Hinit).
Qed.

Lemma keeps_registry_registered w w' :
  keeps registry_of w w' → keeps registered w w'.
Proof.
  unfold keeps, registry_of, registered. by intros [= -> _ _ _].
Qed.

Lemma get_instance_keeps_registered : preserves (keeps registered) get_instance.
Proof.
  intros w. unfold keeps.
  destruct (get_instance_returns w) as (inst & _ & Hinst & Hps & _).
  unfold registered at 1. by rewrite Hinst.
Qed.

Lemma get_instance_then_keeps_registered {A} (f : nat → IO A) :
  (∀ self, preserves (keeps registry_of) (f self)) →
  preserves (keeps registered) (get_instance ≫= f).
Proof.
  intros Hf.
  apply (preserves_bind (keeps registered)); [apply get_instance_keeps_registered|].
  intros self. eapply preserves_weaken; [apply keeps_registry_registered|].
  apply Hf.
Qed.

Section Registering_calls.
Context (serialize : pyobj → result pyobj).
Context (json_dumps : pyobj → result string).
Context (str : pyobj → result string).

Abbreviation do := (perform serialize json_dumps str).

(** X17: only the three [add_..._exporter] methods change what is
    registered: after any other call of the class the registered processors
    are exactly those from before. *)
Theorem only_the_add_methods_register c w :
  c ≠ Call_add_console_span_exporter →
  (∀ path, c ≠ Call_add_file_span_exporter path) →
  (∀ exporter, c ≠ Call_add_span_exporter exporter) →
  registered (after (do c w)) = registered w.
Proof.
  intros Hconsole Hfile Hany.
  change (keeps registered w (after (do c w))). revert w.
  change (preserves (keeps registered) (do c)).
  destruct c as [| | |path|exporter|name attributes| | | |key value| |]; simpl.
  - apply get_instance_then_keeps_registered. by intros _ w.
  - apply get_instance_then_keeps_registered. by intros _ w.
  - done.
  - by destruct (Hfile path).
  - by destruct (Hany exporter).
  - apply (preserves_bind (keeps registered)); [|by intros _ w].
    apply get_instance_then_keeps_registered. by intros _ w.
  - by intros w.
  - apply get_instance_then_keeps_registered. intros _.
    apply (preserves_bind (keeps registry_of)); [by intros w|].
    intros span. apply on_span_keeps.
  - apply get_instance_then_keeps_registered. intros _.
    apply (preserves_bind (keeps registry_of)); [by intros w|].
    intros span. apply on_span_keeps.
  - intros w. unfold keeps. rewrite set_attribute_unfold. cbv zeta.
    pose proof (get_instance_keeps_registered w) as Hkept.
    unfold keeps, after in *.
    destruct (_generate_attribute_value serialize json_dumps str value);
      [destruct (current_span w)|]; done.
  - intros w. apply close_registered.
  - intros w. apply close_registered.
Qed.

End Registering_calls.

(** * Further examples *)

Abbreviation sample_coerce :=
  (_generate_attribute_value sample_serialize sample_json_dumps sample_str).


(** The second item of three raises; the third is never reached. *)
Lemma coercion_first_failure_witness :
  sample_coerce (PList [PInt 1; PObj "Unprintable" 0; PObj "datetime" 0])
  = Raise ValueError
  ∧ sample_coerce (PTuple [PInt 1; PObj "Unprintable" 0; PObj "datetime" 0])
    = Raise ValueError.
Proof.
  apply (coercion_raises_what_the_first_failing_item_raises sample_serialize
           sample_json_dumps sample_str
           [PInt 1; PObj "Unprintable" 0; PObj "datetime" 0] 1
           (PObj "Unprintable" 0) ValueError).
  - simpl. constructor; [|constructor]. by exists (PInt 1).
  - reflexivity.
  - reflexivity.
Defined.

(** No spans exported on a full device. *)
Lemma export_of_no_spans_witness :
  outcome (export sample_to_json spans_jsonl [] (with_logs 0)) = Return SUCCESS
  ∧ files (after (export sample_to_json spans_jsonl [] (with_logs 0)))
      !! "logs/spans.jsonl" = Some "".
Proof.
  assert (open_error (file_name spans_jsonl) (with_logs 0) = None) as Hopen
    by (by vm_compute).
  destruct (export_of_no_spans sample_to_json spans_jsonl (with_logs 0) Hopen)
    as (Hout & _ & Hfile & _).
  split; [done|]. etrans; [exact Hfile|]. by vm_compute.
Defined.

(** One span, then another, against both at once. *)
Lemma export_twice_witness :
  files (after (export sample_to_json spans_jsonl [run_span]
                  (after (export sample_to_json spans_jsonl [load_span]
                            (with_logs 100)))))
  = files (after (export sample_to_json spans_jsonl [load_span; run_span]
                    (with_logs 100))).
Proof.
  assert (open_error (file_name spans_jsonl) (with_logs 100) = None) as Hopen
    by (by vm_compute).
  assert (written_size (records sample_to_json ([load_span] ++ [run_span]))
          ≤ free_space (with_logs 100)) as Hfit
    by (vm_compute; lia).
  by destruct (export_twice_is_export_of_both sample_to_json spans_jsonl
                 [load_span] [run_span] (with_logs 100) Hopen Hfit)
    as (_ & _ & _ & Hfiles & _).
Defined.

(** Construction and export in a fresh process. *)
Lemma export_after_construction_witness :
  outcome (export sample_to_json (mkFileSpanExporter "logs/spans.jsonl")
             [load_span] (after (__init__ "logs/spans.jsonl" (fresh_process 100))))
  = Return SUCCESS.
Proof.
  assert (dirname "logs/spans.jsonl" ≠ "") as H1 by (by vm_compute).
  assert (path_exists (dirname "logs/spans.jsonl") (fresh_process 100) = false)
    as H2 by (by vm_compute).
  assert (parent_error (dirname "logs/spans.jsonl") (fresh_process 100) = None)
    as H3 by (by vm_compute).
  assert (basename "logs/spans.jsonl" ≠ "") as H4 by (by vm_compute).
  assert (entry "logs/spans.jsonl" (fresh_process 100) ≠ Some Directory)
    as H5 by (by vm_compute).
  assert (written_size (records sample_to_json [load_span])
          ≤ free_space (fresh_process 100)) as H6 by (vm_compute; lia).
  by destruct (export_after_construction sample_to_json "logs/spans.jsonl"
                 [load_span] (fresh_process 100) H1 H2 H3 H4 H5 H6)
    as (_ & Hout & _).
Defined.

(** An exporter below a regular file is constructed, and cannot export. *)
Lemma construction_below_a_file_witness :
  __init__ "notes.txt/spans.jsonl" with_a_note
  = (Return (mkFileSpanExporter "notes.txt/spans.jsonl"), with_a_note)
  ∧ outcome (export sample_to_json (mkFileSpanExporter "notes.txt/spans.jsonl")
               [load_span] with_a_note) = Raise NotADirectoryError.
Proof.
  assert (entry (dirname "notes.txt/spans.jsonl") with_a_note = Some RegularFile)
    as Hfile by (by vm_compute).
  destruct (construction_accepts_a_regular_file_as_directory sample_to_json
              "notes.txt/spans.jsonl" with_a_note Hfile) as [Hinit _].
  split; [done|]. by vm_compute.
Defined.

(** [close] as the first call of a process. *)
Lemma close_without_instance_witness :
  outcome (close (fresh_process 0)) = Return ()
  ∧ events (after (close (fresh_process 0))) = []
  ∧ tracer_provider (after (close (fresh_process 0))) = Some [].
Proof.
  destruct (close_without_instance_creates_it (fresh_process 0) eq_refl)
    as (_ & Hout & Hev & _ & _ & Hprovider).
  by split_and!.
Defined.

(** A [datetime] set and the span marked: the attributes stay well-typed. *)
Lemma attributes_shaped_witness :
  attributes_shaped
    (run_calls sample_serialize sample_json_dumps sample_str
       [Call_set_attribute "when" (PObj "datetime" 0); Call_mark_succeeded]
       tracing).
Proof.
  assert (attributes_shaped tracing) as Hshaped.
  { intros i s key v Hs Hv. simpl in Hs.
    apply lookup_singleton_Some in Hs as [_ <-]. by simpl in Hv. }
  by destruct (calls_keep_attributes_shaped sample_serialize sample_json_dumps
                 sample_str
                 [Call_set_attribute "when" (PObj "datetime" 0); Call_mark_succeeded]
                 tracing Hshaped) as [Hall _].
Defined.

(** After a first call run to its end the instance is complete. *)
Lemma instance_is_complete_witness :
  c_lock (run_threads (replicate 10 0) (fresh_threads 1)) = None
  ∧ c_has_processors (run_threads (replicate 10 0) (fresh_threads 1)) = true.
Proof.
  assert (c_lock (run_threads (replicate 10 0) (fresh_threads 1)) = None)
    as Hfree by (by vm_compute).
  assert (is_Some (c_instance (run_threads (replicate 10 0) (fresh_threads 1))))
    as Hsome by (vm_compute; by eexists).
  destruct (instance_is_complete_when_the_lock_is_free 1 (replicate 10 0)
              Hfree Hsome) as (_ & _ & Hprocessors).
  by split.
Defined.

(** Two threads suffice for the early return. *)
Lemma early_return_witness :
  ∃ schedule,
    (1, Some 0) ∈ c_returned (run_threads schedule (fresh_threads 2))
    ∧ c_has_processors (run_threads schedule (fresh_threads 2)) = false.
Proof.
  assert (2 ≤ 2) as Htwo by lia.
  destruct (instance_can_be_returned_before_it_is_complete 2 Htwo)
    as (schedule & Hret & _ & Hprocessors & _).
  by exists schedule.
Defined.

(** The directory is made once. *)
Lemma constructing_again_witness :
  events (after (__init__ "logs/spans.jsonl"
                   (after (__init__ "logs/spans.jsonl" (fresh_process 0)))))
  = [EvMkdir "logs"].
Proof.
  assert (__init__ "logs/spans.jsonl" (fresh_process 0)
          = (Return spans_jsonl, with_logs 0)) as Hinit by (by vm_compute).
  pose proof (constructing_again_changes_nothing _ _ _ _ Hinit) as Hagain.
  unfold with_logs in Hagain. rewrite Hagain. by vm_compute.
Defined.

(** Marking the span registers nothing. *)
Lemma only_the_add_methods_register_witness :
  registered
    (after (perform sample_serialize sample_json_dumps sample_str
              Call_mark_succeeded
              (after (add_console_span_exporter (fresh_process 0)))))
  = [mkBatchSpanProcessor 0 ConsoleSpanExporter].
Proof.
  rewrite (only_the_add_methods_register sample_serialize sample_json_dumps
             sample_str Call_mark_succeeded).
  - by vm_compute.
  - done.
  - done.
  - done.
Defined.
